(** * pixel-wave: the procedural animation engine of [PixelGridBackground.tsx]

    A shallow embedding of the grid builder ([initGrid]), of the frame
    renderer ([draw]) and of the two colour helpers ([hexToRgb],
    [lerpColor]) of [src/components/PixelGridBackground.tsx], followed by
    the properties the specification states about them.

    Number model.  A JavaScript [number] is modelled as a real number and
    the arithmetic of the source as exact real arithmetic; integer valued
    quantities ([cols], [rows], cell indices, colour channels) are in [Z].
    Rounding of doubles, the single precision of [Float32Array] and the
    non-finite values [NaN] and [Infinity] are not represented there.
    Where they decide a property, the same lines are evaluated on IEEE 754
    numbers in the module [Binary64].  The libraries the component imports
    ([seedrandom], [simplex-noise]) are parameters of the development. *)

From Stdlib Require Import Reals Lra Lia ZArith List String Ascii Bool.
From Stdlib Require Floats.SpecFloat.
Import ListNotations.

Open Scope R_scope.

(** ** The [Math] functions the component uses *)

Module JsMath.

(** [Math.floor] and [Math.ceil], to the integers. *)
Definition floor (x : R) : Z := Int_part x.
Definition ceil (x : R) : Z := (- Int_part (- x))%Z.

(** [Math.round] rounds to the nearest integer, halves upwards. *)
Definition round (x : R) : Z := floor (x + / 2).

Definition max (a b : R) : R := Rmax a b.
Definition min (a b : R) : R := Rmin a b.

(** [Math.pow] on a base that is not negative: [pow 0 y] is [0] for a
    positive exponent and [1] for the exponent [0]; elsewhere it is the
    real power.  (A negative exponent at base [0] is [Infinity] in
    JavaScript, which the number model does not represent.) *)
Definition pow (x y : R) : R :=
  if Req_dec_T x 0
  then (if Req_dec_T y 0 then 1 else 0)
  else Rpower x y.

End JsMath.

(** ** Colours *)

Record RGB := mkRGB { r : Z; g : Z; b : Z }.

Definition black : RGB := mkRGB 0 0 0.

(** *** The regular expression of [hexToRgb]

    [/^#?([a-f\d]{2})([a-f\d]{2})([a-f\d]{2})$/i]: an anchored sequence of
    an optional literal and of capturing groups, each a character class
    repeated a fixed number of times.  A string is the sequence of its
    code units; a unit beyond ASCII is in no class of the pattern and has
    no ASCII canonical form, so that one byte per unit is enough. *)

Module Regex.

Inductive ClassItem :=
| Range (lo hi : ascii)     (* a-f *)
| Digit.                    (* \d *)

Inductive Node :=
| OptChar (c : ascii)                       (* c? *)
| Group (cls : list ClassItem) (n : nat).   (* ([cls]{n}) *)

(** The canonical form of a character under the [i] flag: its upper
    case. Only the ASCII letters change. *)
Definition canonicalize (c : ascii) : ascii :=
  let n := nat_of_ascii c in
  if ((97 <=? n) && (n <=? 122))%nat then ascii_of_nat (n - 32) else c.

Definition in_range (lo hi c : ascii) : bool :=
  ((nat_of_ascii lo <=? nat_of_ascii c) && (nat_of_ascii c <=? nat_of_ascii hi))%nat.

(** Under [i] a character is in a range when its canonical form is the
    canonical form of a character of the range. *)
Fixpoint chars_from (lo : nat) (len : nat) : list ascii :=
  match len with
  | O => []
  | S k => ascii_of_nat lo :: chars_from (S lo) k
  end.

Definition range_chars (lo hi : ascii) : list ascii :=
  chars_from (nat_of_ascii lo) (S (nat_of_ascii hi) - nat_of_ascii lo).

Definition item_match (ignoreCase : bool) (it : ClassItem) (c : ascii) : bool :=
  match it with
  | Digit => in_range "0" "9" c
  | Range lo hi =>
      if ignoreCase
      then existsb (fun d => Ascii.eqb (canonicalize d) (canonicalize c))
             (range_chars lo hi)
      else in_range lo hi c
  end.

Definition class_match (ignoreCase : bool) (cls : list ClassItem) (c : ascii) : bool :=
  existsb (fun it => item_match ignoreCase it c) cls.

(** [take i cls n s] consumes exactly [n] characters of the class. *)
Fixpoint take (i : bool) (cls : list ClassItem) (n : nat) (s : string)
  : option (string * string) :=
  match n with
  | O => Some (EmptyString, s)
  | S k =>
      match s with
      | EmptyString => None
      | String c s' =>
          if class_match i cls c
          then match take i cls k s' with
               | Some (cap, rest) => Some (String c cap, rest)
               | None => None
               end
          else None
      end
  end.

(** [exec i re s]: the captures of the match of [^re$] on [s], or [None]
    ([null]).  The optional character is greedy and is given back when
    the rest does not match. *)
Fixpoint exec (i : bool) (re : list Node) (s : string) : option (list string) :=
  match re with
  | [] => match s with EmptyString => Some [] | _ => None end
  | OptChar c :: re' =>
      match s with
      | String d s' =>
          if Ascii.eqb d c
          then match exec i re' s' with
               | Some caps => Some caps
               | None => exec i re' s
               end
          else exec i re' s
      | EmptyString => exec i re' s
      end
  | Group cls n :: re' =>
      match take i cls n s with
      | Some (cap, rest) =>
          match exec i re' rest with
          | Some caps => Some (cap :: caps)
          | None => None
          end
      | None => None
      end
  end.

End Regex.

(** [parseInt(s, 16)]: the value of the leading hexadecimal digits of [s].
    ([NaN], the result on a string with no leading digit, is not reached
    from [hexToRgb], whose groups hold two digits each.) *)
Definition hex_value (c : ascii) : option Z :=
  let n := nat_of_ascii c in
  if ((48 <=? n) && (n <=? 57))%nat then Some (Z.of_nat (n - 48))
  else if ((97 <=? n) && (n <=? 102))%nat then Some (Z.of_nat (n - 87))
  else if ((65 <=? n) && (n <=? 70))%nat then Some (Z.of_nat (n - 55))
  else None.

Fixpoint parseInt16_from (acc : Z) (s : string) : Z :=
  match s with
  | EmptyString => acc
  | String c s' =>
      match hex_value c with
      | Some d => parseInt16_from (acc * 16 + d)%Z s'
      | None => acc
      end
  end.

Definition parseInt16 (s : string) : Z := parseInt16_from 0 s.

Definition hexPattern : list Regex.Node :=
  [ Regex.OptChar "#";
    Regex.Group [Regex.Range "a" "f"; Regex.Digit] 2;
    Regex.Group [Regex.Range "a" "f"; Regex.Digit] 2;
    Regex.Group [Regex.Range "a" "f"; Regex.Digit] 2 ].

Definition hexToRgb (hex : string) : RGB :=
  match Regex.exec true hexPattern hex with
  | Some [c1; c2; c3] => mkRGB (parseInt16 c1) (parseInt16 c2) (parseInt16 c3)
  | _ => black
  end.

(** A fill style is one of the colour strings of the parameters, or the
    string [rgb(r, g, b)] that [lerpColor] builds. *)
Inductive FillStyle :=
| ColorStr (s : string)
| RgbStr (r g b : Z).

Definition lerpColor (c1 c2 : RGB) (t : R) : FillStyle :=
  RgbStr (JsMath.round (IZR (r c1) + (IZR (r c2) - IZR (r c1)) * t))
         (JsMath.round (IZR (g c1) + (IZR (g c2) - IZR (g c1)) * t))
         (JsMath.round (IZR (b c1) + (IZR (b c2) - IZR (b c1)) * t)).

(** The colour a fill style denotes: the parse of a colour string, the
    channels of an [rgb(...)] string. *)
Definition styleRGB (f : FillStyle) : RGB :=
  match f with
  | ColorStr s => hexToRgb s
  | RgbStr r g b => mkRGB r g b
  end.

(** ** Parameters, palette and grid data *)

Record Params := mkParams {
  pixelSize : R;
  gap : R;
  bgColorStr : string;
  baseGrayStr : string;
  accentYellowStr : string;
  accentPinkStr : string;
  accentYellowProb : R;
  accentPinkProb : R;
  maskHeight : R;
  maskFeatherY : R;
  macroScale : R;
  macroVx : R;
  macroVy : R;
  macroTimeScale : R;
  macroThreshold : R;
  macroFeather : R;
  microScale : R;
  microTimeScale : R;
  microThreshold : R;
  microFeather : R;
  biasStrength : R;
  accentMixStrength : R;
  mixGamma : R;
  smoothing : R;
  baseAlpha : R;
  activeAlphaBoost : R;
  enableAnimation : bool;
  debugView : bool
}.

(** The initial value of [params]. *)
Definition defaultParams : Params :=
  {| pixelSize := 3; gap := 5;
     bgColorStr := "#F6F2EF"; baseGrayStr := "#D9D7D2";
     accentYellowStr := "#F5F7D9"; accentPinkStr := "#FFEAEA";
     accentYellowProb := 25 / 100; accentPinkProb := 1 / 10;
     maskHeight := 1; maskFeatherY := 2 / 10;
     macroScale := 12 / 1000; macroVx := 25 / 10; macroVy := -1;
     macroTimeScale := 3 / 1000; macroThreshold := 35 / 100;
     macroFeather := 15 / 100;
     microScale := 8 / 100; microTimeScale := 1 / 100;
     microThreshold := 2 / 10; microFeather := 2 / 10;
     biasStrength := 5 / 10;
     accentMixStrength := 1; mixGamma := 18 / 10; smoothing := 15 / 100;
     baseAlpha := 25 / 100; activeAlphaBoost := 35 / 100;
     enableAnimation := true; debugView := false |}.

Record Palette := mkPalette { bg : RGB; gray : RGB; yellow : RGB; pink : RGB }.

Definition initialPalette : Palette := mkPalette black black black black.

Definition updatePalette (p : Params) : Palette :=
  {| bg := hexToRgb (bgColorStr p);
     gray := hexToRgb (baseGrayStr p);
     yellow := hexToRgb (accentYellowStr p);
     pink := hexToRgb (accentPinkStr p) |}.

(** [gridData.current]: [targetTypes] is a [Uint8Array] (0 gray, 1 yellow,
    2 pink), [biases] and [activations] are [Float32Array]s. *)
Record GridData := mkGrid {
  cols : Z;
  rows : Z;
  targetTypes : list nat;
  biases : list R;
  activations : list R
}.

(** The state the component retains between calls. *)
Record Component := mkComponent {
  palette : Palette;
  gridData : option GridData
}.

Definition initialComponent : Component := mkComponent initialPalette None.

(** ** The imported libraries

    [seedrandom(seed)] makes a generator, a call of the generator yields a
    number and advances it; [createNoise3D(rng)] makes a noise function. *)
Record Libs := mkLibs {
  Prng : Type;
  seedrandom : string -> Prng;
  next : Prng -> R * Prng;
  createNoise3D : Prng -> R -> R -> R -> R
}.

Definition macroNoise (L : Libs) : R -> R -> R -> R :=
  createNoise3D L (seedrandom L "macro").

Definition microNoise (L : Libs) : R -> R -> R -> R :=
  createNoise3D L (seedrandom L "micro").

(** ** Typed arrays and loops *)

Inductive Completion := Normal | ThrowRangeError.

(** [new Uint8Array(n)], [new Float32Array(n)] for an integer [n]: a
    negative length throws [RangeError] ([None]), otherwise the array
    holds [n] zeros.  (The [RangeError] of a length that is infinite or
    above the limit of the engine is not modelled; what is stated of the
    cells of a build is stated for a build that completes.) *)
Definition newTypedArray {A : Type} (zero : A) (n : Z) : option (list A) :=
  if (n <? 0)%Z then None else Some (repeat zero (Z.to_nat n)).

(** [arr[i]] on an index inside the array; the source reads at such
    indices only, [zero] stands for the read outside. *)
Definition get {A : Type} (zero : A) (arr : list A) (i : Z) : A :=
  nth (Z.to_nat i) arr zero.

(** [arr[i] = v]: a typed array ignores a write outside its length. *)
Fixpoint set_nat {A : Type} (arr : list A) (i : nat) (v : A) : list A :=
  match arr, i with
  | [], _ => []
  | _ :: tl, O => v :: tl
  | hd :: tl, S k => hd :: set_nat tl k v
  end.

Definition set {A : Type} (arr : list A) (i : Z) (v : A) : list A :=
  if (i <? 0)%Z then arr else set_nat arr (Z.to_nat i) v.

(** [for (let i = from; i < from + n; i++) s = body(i, s)]. *)
Fixpoint for_loop {S : Type} (n : nat) (from : Z) (body : Z -> S -> S) (s : S) : S :=
  match n with
  | O => s
  | Datatypes.S k => for_loop k (from + 1)%Z body (body from s)
  end.

(** [for (let i = 0; i < bound; i++)]. *)
Definition for_upto {S : Type} (bound : Z) (body : Z -> S -> S) (s : S) : S :=
  for_loop (Z.to_nat bound) 0%Z body s.

(** The integers [lo], [lo+1], ..., [hi]. *)
Definition zrange (lo hi : Z) : list Z :=
  map (fun k => (lo + Z.of_nat k)%Z) (seq 0 (Z.to_nat (hi - lo + 1))).

(** ** [initGrid] *)

Definition radius : Z := 1.

(** The scan of the cells generated before [(x, y)]: the row above
    ([dy = -1], [dx] from [-1] to [1]) and the cell to the left ([dy = 0],
    [dx = -1]); it stops at the first cell whose type is not [0]. *)
Definition hasAccentNeighbor (cols rows : Z) (targetTypes : list nat) (x y : Z) : bool :=
  existsb (fun dy =>
    let maxDx := if (dy =? 0)%Z then (-1)%Z else radius in
    existsb (fun dx =>
      let nx := (x + dx)%Z in
      let ny := (y + dy)%Z in
      if ((nx >=? 0) && (nx <? cols) && (ny >=? 0) && (ny <? rows))%Z
      then
        let idx := (ny * cols + nx)%Z in
        negb (get 0%nat targetTypes idx =? 0)%nat
      else false)
      (zrange (- radius) maxDx))
    (zrange (- radius) 0).

Record BuildState (L : Libs) := mkBuild {
  rng : Prng L;
  b_targetTypes : list nat;
  b_biases : list R;
  b_activations : list R
}.
Arguments mkBuild {L}.
Arguments rng {L}.
Arguments b_targetTypes {L}.
Arguments b_biases {L}.
Arguments b_activations {L}.

(** The body of the loop over the cells. *)
Definition initCell (L : Libs) (p : Params) (cols rows : Z) (i : Z)
  (s : BuildState L) : BuildState L :=
  let (u, rng1) := next L (rng s) in
  let biases1 := set (b_biases s) i (u * 2 - 1) in
  let x := Z.rem i cols in
  let y := JsMath.floor (IZR i / IZR cols) in
  let '(type, rng2) :=
    if hasAccentNeighbor cols rows (b_targetTypes s) x y
    then (0%nat, rng1)
    else
      let (v, rng2) := next L rng1 in
      if Rlt_dec v (accentYellowProb p) then (1%nat, rng2)
      else if Rlt_dec v (accentYellowProb p + accentPinkProb p) then (2%nat, rng2)
      else (0%nat, rng2) in
  {| rng := rng2;
     b_targetTypes := set (b_targetTypes s) i type;
     b_biases := biases1;
     b_activations := set (b_activations s) i 0 |}.

(** [initGrid(width, height)]: the component after the call and how the
    call completes.  A [RangeError] of an array allocation leaves
    [gridData] as it was.  (For a pitch of [0], below the range of the
    sliders, the code divides by zero and computes infinite counts, which
    the real numbers do not represent.) *)
Definition initGrid (L : Libs) (p : Params) (width height : R) (c : Component)
  : Component * Completion :=
  let pal := updatePalette p in
  let pitch := pixelSize p + gap p in
  let cols := JsMath.ceil (width / pitch) in
  let rows := JsMath.ceil (height / pitch) in
  let numCells := (cols * rows)%Z in
  match newTypedArray 0%nat numCells, newTypedArray 0 numCells, newTypedArray 0 numCells with
  | Some targetTypes, Some biases, Some activations =>
      let s := for_upto numCells (initCell L p cols rows)
                 (mkBuild (seedrandom L "grid-layout-fixed") targetTypes biases activations) in
      (mkComponent pal
         (Some (mkGrid cols rows (b_targetTypes s) (b_biases s) (b_activations s))),
       Normal)
  | _, _, _ => (mkComponent pal (gridData c), ThrowRangeError)
  end.

(** ** [draw] *)

(** The calls on the 2D context, in order. *)
Inductive CtxOp :=
| SetFillStyle (f : FillStyle)
| SetGlobalAlpha (a : R)
| FillRect (x y w h : R).

Record Canvas := mkCanvas { canvasWidth : R; canvasHeight : R }.

(** [Math.max(0, Math.min(1, v))]. *)
Definition clamp01 (v : R) : R := JsMath.max 0 (JsMath.min 1 v).

(** The vertical mask of row [y].  (For [maskFeatherY = 0], below the
    range of its slider, the division is by zero and the code computes an
    infinity or [NaN], which the real numbers do not represent.) *)
Definition verticalMask (p : Params) (rows y : Z) : R :=
  let ny := IZR y / IZR rows in
  let threshold := 1 - maskHeight p in
  let maskVal := (ny - threshold) / maskFeatherY p in
  clamp01 maskVal.

(** The threshold band with feather and the smoothstep, as computed for
    [macroMask] and for [microMask].  (For a band of width [0] the division
    is by zero: the code computes [0], [1] or [NaN], see
    [Binary64.smoothstepMask]; the properties of the mask, of the
    activations and of the values drawn are stated for an open band,
    [openBand].) *)
Definition smoothstepMask (val threshold feather : R) : R :=
  let bandStart := threshold - feather in
  let bandEnd := threshold + feather in
  let m := (val - bandStart) / (bandEnd - bandStart) in
  let m := clamp01 m in
  m * m * (3 - 2 * m).

(** Steps 1 to 3 of the cell: macro wave, micro gate, bias, clamp, gamma. *)
Definition cellTarget (L : Libs) (p : Params) (t : R) (x y : Z) (bias : R) : R :=
  let macroX := (IZR x + t * macroVx p) * macroScale p in
  let macroY := (IZR y + t * macroVy p) * macroScale p in
  let macroVal := (macroNoise L macroX macroY (t * macroTimeScale p) + 1) * (5 / 10) in
  let macroMask := smoothstepMask macroVal (macroThreshold p) (macroFeather p) in
  let microX := (IZR x + t * macroVx p) * microScale p in
  let microY := (IZR y + t * macroVy p) * microScale p in
  let microVal := (microNoise L microX microY (t * microTimeScale p) + 1) * (5 / 10) in
  let microMask := smoothstepMask microVal (microThreshold p) (microFeather p) in
  let signal := macroMask * microMask in
  let signal := signal + bias * biasStrength p in
  let target := clamp01 signal in
  if Req_dec_T (mixGamma p) 1 then target else JsMath.pow target (mixGamma p).

(** Step 4, the temporal smoothing, in exact arithmetic.  (The array
    keeps the result rounded to single precision, see
    [Binary64.storedActivation].) *)
Definition smooth (p : Params) (activation target : R) : R :=
  activation + (target - activation) * smoothing p.

(** The colour logic of step 5. *)
Definition accentMix (p : Params) (current : R) : R :=
  JsMath.min 1 (current * accentMixStrength p).

(** The choice of the fill style of an accent cell from its [mix]. *)
Definition mixColor (p : Params) (pal : Palette) (type : nat) (mix : R) : FillStyle :=
  let accent := if (type =? 1)%nat then yellow pal else pink pal in
  if Rlt_dec mix (1 / 100) then ColorStr (baseGrayStr p)
  else if Rgt_dec mix (99 / 100)
       then ColorStr (if (type =? 1)%nat then accentYellowStr p else accentPinkStr p)
       else lerpColor (gray pal) accent mix.

Definition cellColor (p : Params) (pal : Palette) (type : nat) (current : R) : FillStyle :=
  if (type =? 0)%nat then ColorStr (baseGrayStr p)
  else mixColor p pal type (accentMix p current).

Record DrawState := mkDraw { d_grid : GridData; d_ops : list CtxOp }.

(** [activations[i] = v].  (The array keeps [v] rounded to single
    precision; the real numbers keep [v].) *)
Definition set_activation (gd : GridData) (i : Z) (v : R) : GridData :=
  mkGrid (cols gd) (rows gd) (targetTypes gd) (biases gd) (set (activations gd) i v).

(** The body of the loop over the columns of row [y]. *)
Definition drawCell (L : Libs) (p : Params) (pal : Palette) (t maskVal : R)
  (y x : Z) (s : DrawState) : DrawState :=
  let gd := d_grid s in
  let pitch := pixelSize p + gap p in
  let i := (y * cols gd + x)%Z in
  let target := cellTarget L p t x y (get 0 (biases gd) i) in
  let current := smooth p (get 0 (activations gd) i) target in
  let gd1 := set_activation gd i current in
  if debugView p then
    let v := JsMath.floor (current * 255 * maskVal) in
    mkDraw gd1
      (d_ops s ++ [SetFillStyle (RgbStr v v v);
                   FillRect (IZR x * pitch) (IZR y * pitch) (pixelSize p) (pixelSize p)])
  else
    let type := get 0%nat (targetTypes gd1) i in
    let finalColorStr := cellColor p pal type current in
    let alpha := (baseAlpha p + current * activeAlphaBoost p) * maskVal in
    mkDraw gd1
      (d_ops s ++ [SetGlobalAlpha alpha; SetFillStyle finalColorStr;
                   FillRect (IZR x * pitch) (IZR y * pitch) (pixelSize p) (pixelSize p)]).

(** The body of the loop over the rows: a row whose mask is [0] is
    skipped. *)
Definition drawRow (L : Libs) (p : Params) (pal : Palette) (t : R)
  (y : Z) (s : DrawState) : DrawState :=
  let maskVal := verticalMask p (rows (d_grid s)) y in
  if Rle_dec maskVal 0 then s
  else for_upto (cols (d_grid s)) (drawCell L p pal t maskVal y) s.

(** [draw(time)]: [reducedMotion] is the answer of [prefersReducedMotion()],
    [canvas] the canvas with its context when both exist. *)
Definition draw (L : Libs) (p : Params) (reducedMotion : bool) (canvas : option Canvas)
  (time : R) (c : Component) : Component * list CtxOp :=
  match canvas, gridData c with
  | Some cv, Some gd =>
      let pal := palette c in
      let bgRgb := bg pal in
      let clear := [SetFillStyle (RgbStr (r bgRgb) (g bgRgb) (b bgRgb));
                    FillRect 0 0 (canvasWidth cv) (canvasHeight cv)] in
      let t := if reducedMotion then 0 else time * (1 / 1000) in
      let s := for_upto (rows gd) (drawRow L p pal t) (mkDraw gd clear) in
      (mkComponent pal (Some (d_grid s)), d_ops s)
  | _, _ => (c, [])
  end.

(** The calls [draw] makes before its loops: the background is cleared. *)
Definition clearOps (pal : Palette) (canvas : option Canvas) : list CtxOp :=
  match canvas with
  | Some cv => [SetFillStyle (RgbStr (r (bg pal)) (g (bg pal)) (b (bg pal)));
                FillRect 0 0 (canvasWidth cv) (canvasHeight cv)]
  | None => []
  end.

(** A frame: the parameters, the motion preference, the canvas and the
    time of one call of [draw]. *)
Record Frame := mkFrame {
  f_params : Params;
  f_reducedMotion : bool;
  f_canvas : option Canvas;
  f_time : R
}.

Definition drawFrame (L : Libs) (c : Component) (f : Frame) : Component :=
  fst (draw L (f_params f) (f_reducedMotion f) (f_canvas f) (f_time f) c).

Definition runFrames (L : Libs) (fs : list Frame) (c : Component) : Component :=
  fold_left (drawFrame L) fs c.

(** The activation of a cell after [n] frames with the same target, in
    exact arithmetic: the sequence [a0 = 0], [a(n+1) = a(n) + (T - a(n)) * s]. *)
Fixpoint activationAfter (p : Params) (target : R) (n : nat) : R :=
  match n with
  | O => 0
  | S k => smooth p (activationAfter p target k) target
  end.

(** ** The arithmetic of the code in binary64

    Where the rounding of the doubles, a division by zero or the single
    precision of the [Float32Array] decides a property, the lines of
    [draw] are evaluated on IEEE 754 numbers: the operations of
    [SpecFloat] at precision 53 (round to nearest, ties to even), and the
    store into a [Float32Array] as the rounding to precision 24. *)

Module Binary64.

Definition number : Type := SpecFloat.spec_float.

Definition prec : Z := 53.
Definition emax : Z := 1024.

Definition add : number -> number -> number := SpecFloat.SFadd prec emax.
Definition sub : number -> number -> number := SpecFloat.SFsub prec emax.
Definition mul : number -> number -> number := SpecFloat.SFmul prec emax.
Definition div : number -> number -> number := SpecFloat.SFdiv prec emax.

(** The double [m * 2^e], for a mantissa [m] of 53 bits. *)
Definition double (m : positive) (e : Z) : number := SpecFloat.S754_finite false m e.

Definition NaN : number := SpecFloat.S754_nan.
Definition zero : number := SpecFloat.S754_zero false.
Definition half : number := double 4503599627370496 (-53).
Definition one : number := double 4503599627370496 (-52).
Definition two : number := double 4503599627370496 (-51).
Definition three : number := double 6755399441055744 (-51).

Definition ltb : number -> number -> bool := SpecFloat.SFltb.
Definition eqb : number -> number -> bool := SpecFloat.SFeqb.

Definition isNegZero (x : number) : bool :=
  match x with SpecFloat.S754_zero true => true | _ => false end.

(** [Math.min] and [Math.max]: [NaN] when an argument is [NaN]; [-0] is
    below [+0]. *)
Definition min (a b : number) : number :=
  match SpecFloat.SFcompare a b with
  | None => NaN
  | Some Lt => a
  | Some Gt => b
  | Some Eq => if isNegZero b then b else a
  end.

Definition max (a b : number) : number :=
  match SpecFloat.SFcompare a b with
  | None => NaN
  | Some Lt => b
  | Some Gt => a
  | Some Eq => if isNegZero a then b else a
  end.

(** The threshold band and the smoothstep of [macroMask] and
    [microMask]. *)
Definition smoothstepMask (val threshold feather : number) : number :=
  let bandStart := sub threshold feather in
  let bandEnd := add threshold feather in
  let m := div (sub val bandStart) (sub bandEnd bandStart) in
  let m := max zero (min one m) in
  mul (mul m m) (sub three (mul two m)).

(** The value an element of a [Float32Array] holds after the store of
    [x], read back as a double: [x] rounded to single precision. *)
Definition float32 (x : number) : number :=
  match x with
  | SpecFloat.S754_finite s m e =>
      match SpecFloat.binary_normalize 24 128 (if s then Zneg m else Zpos m) e s with
      | SpecFloat.S754_finite s' m' e' =>
          SpecFloat.binary_normalize prec emax (if s' then Zneg m' else Zpos m') e' s'
      | y => y
      end
  | _ => x
  end.

(** Steps 1 to 3 of a cell from the two noise samples; [pow] is
    [Math.pow]. *)
Definition cellTarget (pow : number -> number -> number)
  (macroSample microSample bias : number)
  (macroThreshold macroFeather microThreshold microFeather : number)
  (biasStrength mixGamma : number) : number :=
  let macroVal := mul (add macroSample one) half in
  let macroMask := smoothstepMask macroVal macroThreshold macroFeather in
  let microVal := mul (add microSample one) half in
  let microMask := smoothstepMask microVal microThreshold microFeather in
  let signal := mul macroMask microMask in
  let signal := add signal (mul bias biasStrength) in
  let target := max zero (min one signal) in
  if eqb mixGamma one then target else pow target mixGamma.

(** Step 4 and the store: [activations[i] = activations[i] + (target -
    activations[i]) * smoothing], as the array holds it afterwards. *)
Definition storedActivation (activation target smoothing : number) : number :=
  float32 (add activation (mul (sub target activation) smoothing)).

(** The stored activation after [n] frames with the same target. *)
Fixpoint storedAfter (target smoothing : number) (n : nat) : number :=
  match n with
  | O => zero
  | S k => storedActivation (storedAfter target smoothing k) target smoothing
  end.

End Binary64.

(** ** The words of the specification *)

(** A hexadecimal digit. *)
Definition hexDigit (c : ascii) : Prop :=
  In c (list_ascii_of_string "0123456789abcdefABCDEF").

(** An optional [#] followed by exactly six hexadecimal digits. *)
Definition HexColor (s : string) : Prop :=
  exists body : string,
    (s = body \/ s = String "#" body) /\
    String.length body = 6%nat /\
    Forall hexDigit (list_ascii_of_string body).

(** [x] lies between [a] and [c], ends included. *)
Definition betweenZ (a x c : Z) : Prop := (Z.min a c <= x <= Z.max a c)%Z.

(** The cell [(x, y)] is inside the grid. *)
Definition inGrid (gd : GridData) (x y : Z) : Prop :=
  (0 <= x < cols gd)%Z /\ (0 <= y < rows gd)%Z.

(** The half-neighborhood of the cell [(x, y)]: left, up-left, up,
    up-right. *)
Definition halfNeighborhood (x y : Z) : list (Z * Z) :=
  [ (x - 1, y); (x - 1, y - 1); (x, y - 1); (x + 1, y - 1) ]%Z.

(** The [colorClass] of the cell [(x, y)], [i = y * cols + x]. *)
Definition colorClass (gd : GridData) (x y : Z) : nat :=
  get 0%nat (targetTypes gd) (y * cols gd + x).

(** The stored activation of the cell [(x, y)]. *)
Definition activationAt (gd : GridData) (x y : Z) : R :=
  get 0 (activations gd) (y * cols gd + x).

(** ** A small instance of the libraries

    A generator that counts its calls and yields [0], [1/4], [2/4], [3/4]
    in turn, and a noise field that is [0] everywhere; used to run the
    builder and the renderer on concrete inputs. *)
Definition sampleLibs : Libs :=
  {| Prng := nat;
     seedrandom := fun _ => O;
     next := fun n => (IZR (Z.of_nat (n mod 4)) / 4, S n);
     createNoise3D := fun _ _ _ _ => 0 |}.

(** One test of the scan: the cell [(nx, ny)], when inside the grid, has
    a type that is not [0]. *)
Definition accentAt (cols rows : Z) (targetTypes : list nat) (nx ny : Z) : bool :=
  if ((nx >=? 0) && (nx <? cols) && (ny >=? 0) && (ny <? rows))%Z
  then negb (get 0%nat targetTypes (ny * cols + nx) =? 0)%nat
  else false.

(** The layout of the grid: everything but the activations. *)
Definition sameLayout (gd gd' : GridData) : Prop :=
  cols gd' = cols gd /\ rows gd' = rows gd /\
  targetTypes gd' = targetTypes gd /\ biases gd' = biases gd.

(** A number of the unit interval. *)
Definition inUnit (a : R) : Prop := 0 <= a <= 1.

(** The feather opens the band: it is positive, and large enough for the
    band to stay open when its two ends are computed in binary64, where a
    feather below half the spacing of the doubles around the threshold is
    absorbed by it (the constant is [2^52]).  Then [bandStart < bandEnd]
    and the mask does not divide by zero. *)
Definition openBand (threshold feather : R) : Prop :=
  Rabs threshold / 4503599627370496 < feather.

(** Both threshold bands of a cell are open: [macroStart < macroEnd] and
    [microStart < microEnd]. *)
Definition openBands (p : Params) : Prop :=
  openBand (macroThreshold p) (macroFeather p) /\
  openBand (microThreshold p) (microFeather p).

(** The parameters of a frame the smoother relies on: a smoothing factor
    in [(0,1]] and a positive gamma. *)
Definition smootherParams (f : Frame) : Prop :=
  0 < smoothing (f_params f) <= 1 /\ 0 < mixGamma (f_params f).

(** ** Further notions *)

(** The string whose characters are the canonical forms, under the [i]
    flag, of the characters of [s]: its ASCII letters in upper case. *)
Fixpoint canonicalString (s : string) : string :=
  match s with
  | EmptyString => EmptyString
  | String c s' => String (Regex.canonicalize c) (canonicalString s')
  end.

(** A colour channel of eight bits. *)
Definition channel (v : Z) : Prop := (0 <= v <= 255)%Z.

Definition channels (c : RGB) : Prop := channel (r c) /\ channel (g c) /\ channel (b c).

(** Two different cells that touch, by a side or by a corner. *)
Definition adjacent (x y x' y' : Z) : Prop :=
  (x, y) <> (x', y') /\ (Z.abs (x - x') <= 1)%Z /\ (Z.abs (y - y') <= 1)%Z.

(** The generator yields numbers from [0] up to, not including, [1]. *)
Definition unitGenerator (L : Libs) : Prop :=
  forall gen : Prng L, 0 <= fst (next L gen) < 1.

(** The initial parameters without probability mass for the accents. *)
Definition grayParams : Params :=
  {| pixelSize := 3; gap := 5;
     bgColorStr := "#F6F2EF"; baseGrayStr := "#D9D7D2";
     accentYellowStr := "#F5F7D9"; accentPinkStr := "#FFEAEA";
     accentYellowProb := 0; accentPinkProb := 0;
     maskHeight := 1; maskFeatherY := 2 / 10;
     macroScale := 12 / 1000; macroVx := 25 / 10; macroVy := -1;
     macroTimeScale := 3 / 1000; macroThreshold := 35 / 100;
     macroFeather := 15 / 100;
     microScale := 8 / 100; microTimeScale := 1 / 100;
     microThreshold := 2 / 10; microFeather := 2 / 10;
     biasStrength := 5 / 10;
     accentMixStrength := 1; mixGamma := 18 / 10; smoothing := 15 / 100;
     baseAlpha := 25 / 100; activeAlphaBoost := 35 / 100;
     enableAnimation := true; debugView := false |}.

(** The three arrays of the grid have one entry for each cell. *)
Definition wellFormed (gd : GridData) : Prop :=
  List.length (targetTypes gd) = Z.to_nat (cols gd * rows gd) /\
  List.length (biases gd) = Z.to_nat (cols gd * rows gd) /\
  List.length (activations gd) = Z.to_nat (cols gd * rows gd).

(** A call on the context with values in range: an opacity of [[0,1]],
    the channels of an [rgb(...)] string from [0] to [255]. *)
Definition validOp (op : CtxOp) : Prop :=
  match op with
  | SetGlobalAlpha a => 0 <= a <= 1
  | SetFillStyle (RgbStr r g b) => channel r /\ channel g /\ channel b
  | _ => True
  end.

(** The parameters of the opacity: a base and a boost that are not
    negative and add up to [1] at most. *)
Definition alphaParams (p : Params) : Prop :=
  0 <= baseAlpha p /\ 0 <= activeAlphaBoost p /\ baseAlpha p + activeAlphaBoost p <= 1.

Definition paletteChannels (pal : Palette) : Prop :=
  channels (bg pal) /\ channels (gray pal) /\ channels (yellow pal) /\ channels (pink pal).

(** The slider of the mask height: [p.maskHeight = v]. *)
Definition setMaskHeight (v : R) (p : Params) : Params :=
  {| pixelSize := pixelSize p; gap := gap p;
     bgColorStr := bgColorStr p; baseGrayStr := baseGrayStr p;
     accentYellowStr := accentYellowStr p; accentPinkStr := accentPinkStr p;
     accentYellowProb := accentYellowProb p; accentPinkProb := accentPinkProb p;
     maskHeight := v; maskFeatherY := maskFeatherY p;
     macroScale := macroScale p; macroVx := macroVx p; macroVy := macroVy p;
     macroTimeScale := macroTimeScale p; macroThreshold := macroThreshold p;
     macroFeather := macroFeather p;
     microScale := microScale p; microTimeScale := microTimeScale p;
     microThreshold := microThreshold p; microFeather := microFeather p;
     biasStrength := biasStrength p;
     accentMixStrength := accentMixStrength p; mixGamma := mixGamma p;
     smoothing := smoothing p;
     baseAlpha := baseAlpha p; activeAlphaBoost := activeAlphaBoost p;
     enableAnimation := enableAnimation p; debugView := debugView p |}.

(** ** [handleResize]

    What the handler reads from its host: the container with its client
    width and height, whether the canvas is mounted and yields a 2D
    context, the device pixel ratio ([None] when it is not a number), the
    size a canvas keeps for an assigned width or height (the coercion of
    the DOM setter, a parameter), the motion preference and the clock. *)
Record Host := mkHost {
  container : option (R * R);
  canvasMounted : bool;
  contextAvailable : bool;
  devicePixelRatio : option R;
  canvasSize : R -> R;
  reducedMotionPreferred : bool;
  now : R
}.

(** The calls of the handler on the canvas and on its context. *)
Inductive HostOp :=
| SetCanvasWidth (v : R)
| SetCanvasHeight (v : R)
| SetTransform (a b c d e f : R)
| SetImageSmoothingEnabled (on : bool)
| OnContext (op : CtxOp).

(** [window.devicePixelRatio || 1]. *)
Definition pixelRatio (h : Host) : R :=
  match devicePixelRatio h with
  | Some d => if Req_dec_T d 0 then 1 else d
  | None => 1
  end.

(** [handleResize()]: the canvas is sized, the grid is built anew and a
    first frame is drawn; a [RangeError] of the builder ends the handler
    before the frame. *)
Definition handleResize (L : Libs) (p : Params) (h : Host) (c : Component)
  : Component * Completion * list HostOp :=
  match container h, canvasMounted h with
  | Some (w, ht), true =>
      let dpr := pixelRatio h in
      let sized :=
        [SetCanvasWidth (w * dpr); SetCanvasHeight (ht * dpr)] ++
        (if contextAvailable h
         then [SetTransform dpr 0 0 dpr 0 0; SetImageSmoothingEnabled false]
         else []) in
      match initGrid L p w ht c with
      | (c1, ThrowRangeError) => (c1, ThrowRangeError, sized)
      | (c1, Normal) =>
          let canvas :=
            if contextAvailable h
            then Some (mkCanvas (canvasSize h (w * dpr)) (canvasSize h (ht * dpr)))
            else None in
          let (c2, ops) := draw L p (reducedMotionPreferred h) canvas (now h) c1 in
          (c2, Normal, sized ++ map OnContext ops)
      end
  | _, _ => (c, Normal, [])
  end.

(** A host with a container of the given size, a canvas and a context. *)
Definition sampleHost (w ht : R) : Host :=
  {| container := Some (w, ht);
     canvasMounted := true;
     contextAvailable := true;
     devicePixelRatio := Some 2;
     canvasSize := fun v => v;
     reducedMotionPreferred := false;
     now := 16 |}.

(** The number of [fillRect] calls among the calls on the context. *)
Fixpoint countRects (ops : list CtxOp) : nat :=
  match ops with
  | [] => O
  | FillRect _ _ _ _ :: tl => S (countRects tl)
  | _ :: tl => countRects tl
  end.

(** The number of rows, among the first [k], whose mask is positive. *)
Definition visibleRows (p : Params) (rows k : Z) : nat :=
  for_upto k (fun y n => if Rle_dec (verticalMask p rows y) 0 then n else S n) O.

(** ** The activation as it is stored

    The update of step 4 as the program computes and keeps it: each
    operation of binary64 rounds its exact result, and the store into the
    [Float32Array] rounds once more, to single precision.  The two
    roundings are parameters, [double] and [single]; the properties below
    use of them the laws of a rounding to nearest: it is monotone and it
    leaves the numbers of its format as they are. *)
Definition storedSmooth (double single : R -> R) (p : Params) (activation target : R) : R :=
  let current := double (activation + double (double (target - activation) * smoothing p)) in
  single current.

(** The stored activation after [n] frames with the constant target
    [target], from [0]. *)
Fixpoint storedActivationAfter (double single : R -> R) (p : Params) (target : R)
  (n : nat) : R :=
  match n with
  | O => 0
  | S k => storedSmooth double single p (storedActivationAfter double single p target k) target
  end.

(** A rounding with these laws: to the nearest number with [bits] binary
    places, halves upwards.  (Between [1/2] and [1] the numbers with 53
    places are those of binary64, the numbers with 24 places those of
    single precision.) *)
Definition nearest (bits : nat) (x : R) : R :=
  IZR (JsMath.round (x * 2 ^ bits)) / 2 ^ bits.

(** * Properties *)

(** ** Integer parts *)

Lemma floor_bounds (x : R) : IZR (JsMath.floor x) <= x < IZR (JsMath.floor x) + 1.
Proof.
  unfold JsMath.floor, Int_part. rewrite minus_IZR.
  destruct (archimed x) as [H1 H2]. lra.
Qed.

Lemma floor_unique (x : R) (z : Z) : IZR z <= x < IZR z + 1 -> JsMath.floor x = z.
Proof.
  intros [H1 H2]. destruct (floor_bounds x) as [F1 F2].
  assert (Hlt1 : (z < JsMath.floor x + 1)%Z).
  { apply lt_IZR. rewrite plus_IZR. lra. }
  assert (Hlt2 : (JsMath.floor x < z + 1)%Z).
  { apply lt_IZR. rewrite plus_IZR. lra. }
  lia.
Qed.

Lemma ceil_unique (x : R) (z : Z) : IZR z - 1 < x <= IZR z -> JsMath.ceil x = z.
Proof.
  intros [H1 H2]. unfold JsMath.ceil.
  assert (E : JsMath.floor (- x) = (- z)%Z).
  { apply floor_unique. rewrite opp_IZR. lra. }
  unfold JsMath.floor in E. rewrite E. lia.
Qed.

Lemma round_unique (x : R) (z : Z) :
  IZR z - / 2 <= x < IZR z + / 2 -> JsMath.round x = z.
Proof. intros H. unfold JsMath.round. apply floor_unique. lra. Qed.

Lemma round_between (x : R) (lo hi : Z) :
  IZR lo <= x <= IZR hi -> (lo <= JsMath.round x <= hi)%Z.
Proof.
  intros [H1 H2]. unfold JsMath.round.
  destruct (floor_bounds (x + / 2)) as [F1 F2].
  split.
  - assert (lo < JsMath.floor (x + / 2) + 1)%Z; [|lia].
    apply lt_IZR. rewrite plus_IZR. lra.
  - assert (JsMath.floor (x + / 2) < hi + 1)%Z; [|lia].
    apply lt_IZR. rewrite plus_IZR. lra.
Qed.

(** The floor of the quotient of two integers is their [Z] quotient. *)
Lemma floor_div (a d : Z) : d <> 0%Z -> JsMath.floor (IZR a / IZR d) = (a / d)%Z.
Proof.
  intros Hd. apply floor_unique.
  assert (Hd' : IZR d <> 0) by (apply not_0_IZR; exact Hd).
  pose proof (Z.div_mod a d Hd) as E.
  assert (ER : IZR a = IZR d * IZR (a / d) + IZR (a mod d)).
  { rewrite <- mult_IZR, <- plus_IZR. f_equal. exact E. }
  assert (Q : IZR a / IZR d = IZR (a / d) + IZR (a mod d) / IZR d).
  { rewrite ER. field. exact Hd'. }
  rewrite Q.
  assert (0 <= IZR (a mod d) / IZR d < 1); [|lra].
  destruct (Z_lt_le_dec 0 d) as [Hpos|Hneg].
  - destruct (Z.mod_pos_bound a d Hpos) as [M1 M2].
    apply IZR_le in M1. apply IZR_lt in M2, Hpos.
    split.
    + apply Rmult_le_pos; [lra | left; apply Rinv_0_lt_compat; lra].
    + apply Rmult_lt_reg_r with (IZR d); [lra|].
      unfold Rdiv. rewrite Rmult_assoc, Rinv_l by exact Hd'. lra.
  - assert (Hn : (d < 0)%Z) by lia.
    destruct (Z.mod_neg_bound a d Hn) as [M1 M2].
    apply IZR_le in M2. apply IZR_lt in M1, Hn.
    replace (IZR (a mod d) / IZR d) with ((- IZR (a mod d)) / (- IZR d))
      by (field; exact Hd').
    split.
    + apply Rmult_le_pos; [lra | left; apply Rinv_0_lt_compat; lra].
    + apply Rmult_lt_reg_r with (- IZR d); [lra|].
      unfold Rdiv. rewrite Rmult_assoc, Rinv_l by lra. lra.
Qed.

(** ** Clamping *)

Lemma clamp01_range (v : R) : 0 <= clamp01 v <= 1.
Proof.
  unfold clamp01, JsMath.max, JsMath.min, Rmax, Rmin.
  destruct (Rle_dec 1 v); destruct (Rle_dec 0 _); lra.
Qed.

Lemma clamp01_mono (u v : R) : u <= v -> clamp01 u <= clamp01 v.
Proof.
  intros H. unfold clamp01, JsMath.max, JsMath.min, Rmax, Rmin.
  destruct (Rle_dec 1 u); destruct (Rle_dec 1 v);
    repeat match goal with |- context [Rle_dec ?a ?b] => destruct (Rle_dec a b) end; lra.
Qed.

Lemma clamp01_id (v : R) : 0 <= v <= 1 -> clamp01 v = v.
Proof.
  intros H. unfold clamp01, JsMath.max, JsMath.min, Rmax, Rmin.
  destruct (Rle_dec 1 v); destruct (Rle_dec 0 _); lra.
Qed.

Lemma clamp01_low (v : R) : v <= 0 -> clamp01 v = 0.
Proof.
  intros H. unfold clamp01, JsMath.max, JsMath.min, Rmax, Rmin.
  destruct (Rle_dec 1 v); destruct (Rle_dec 0 _); lra.
Qed.

Lemma clamp01_high (v : R) : 1 <= v -> clamp01 v = 1.
Proof.
  intros H. unfold clamp01, JsMath.max, JsMath.min, Rmax, Rmin.
  destruct (Rle_dec 1 v); destruct (Rle_dec 0 _); lra.
Qed.

Example hexToRgb_gray : hexToRgb "#D9D7D2" = mkRGB 217 215 210.
Proof. reflexivity. Qed.

Example hexToRgb_nohash : hexToRgb "f5f7d9" = mkRGB 245 247 217.
Proof. reflexivity. Qed.

Example hexToRgb_short : hexToRgb "#abc" = black.
Proof. reflexivity. Qed.

(** ** [hexToRgb] *)

Section HexToRgb.

Let hexClass : list Regex.ClassItem := [Regex.Range "a" "f"; Regex.Digit].

(** The class [[a-f\d]] under the [i] flag holds the hexadecimal digits
    and nothing else. *)
Lemma hexClass_digit (c : ascii) :
  Regex.class_match true hexClass c = true -> hexDigit c.
Proof.
  destruct c as [[] [] [] [] [] [] [] []]; vm_compute; intros H;
    solve [ discriminate H | intuition ].
Qed.

Lemma take_shape (cls : list Regex.ClassItem) (n : nat) :
  forall s cap rest,
    Regex.take true cls n s = Some (cap, rest) ->
    s = (cap ++ rest)%string /\ String.length cap = n /\
    Forall (fun c => Regex.class_match true cls c = true) (list_ascii_of_string cap).
Proof.
  induction n as [|k IH]; intros s cap rest H; simpl in H.
  - inversion H; subst. repeat split. constructor.
  - destruct s as [|c s']; [discriminate|].
    destruct (Regex.class_match true cls c) eqn:Hc; [|discriminate].
    destruct (Regex.take true cls k s') as [[cap' rest']|] eqn:Ht; [|discriminate].
    inversion H; subst. destruct (IH _ _ _ Ht) as (E & Hl & Hf).
    simpl. repeat split; [now rewrite E | now rewrite Hl | now constructor].
Qed.

(** A match of the three groups consumes six hexadecimal digits and
    nothing more. *)
Lemma groups_shape (s : string) (caps : list string) :
  Regex.exec true (tl hexPattern) s = Some caps ->
  String.length s = 6%nat /\ Forall hexDigit (list_ascii_of_string s).
Proof.
  unfold hexPattern; simpl tl. cbn [Regex.exec]. fold hexClass.
  destruct (Regex.take true hexClass 2 s) as [[c1 r1]|] eqn:T1; [|discriminate].
  destruct (Regex.take true hexClass 2 r1) as [[c2 r2]|] eqn:T2; [|discriminate].
  destruct (Regex.take true hexClass 2 r2) as [[c3 r3]|] eqn:T3; [|discriminate].
  destruct r3; [|discriminate]. intros _.
  destruct (take_shape _ _ _ _ _ T1) as (E1 & L1 & F1).
  destruct (take_shape _ _ _ _ _ T2) as (E2 & L2 & F2).
  destruct (take_shape _ _ _ _ _ T3) as (E3 & L3 & F3).
  subst s r1 r2.
  assert (Hd : forall cap, Forall (fun c => Regex.class_match true hexClass c = true)
                             (list_ascii_of_string cap) ->
                           Forall hexDigit (list_ascii_of_string cap)).
  { intros cap F. eapply Forall_impl; [|exact F]. apply hexClass_digit. }
  assert (Happ : forall a b, list_ascii_of_string (a ++ b)
                             = (list_ascii_of_string a ++ list_ascii_of_string b)%list).
  { induction a; intros; simpl; [reflexivity | now rewrite IHa]. }
  assert (Hlen : forall a b, String.length (a ++ b)
                             = (String.length a + String.length b)%nat).
  { induction a; intros; simpl; [reflexivity | now rewrite IHa]. }
  split.
  - rewrite !Hlen, L1, L2, L3. reflexivity.
  - rewrite !Happ. repeat (apply Forall_app; split); auto.
Qed.

Lemma exec_shape (s : string) (caps : list string) :
  Regex.exec true hexPattern s = Some caps -> HexColor s.
Proof.
  change hexPattern with (Regex.OptChar "#" :: tl hexPattern).
  cbn [Regex.exec].
  destruct s as [|d s'].
  - intros H. apply groups_shape in H. destruct H as [H _]. discriminate H.
  - destruct (Ascii.eqb d "#") eqn:Hd.
    + apply Ascii.eqb_eq in Hd. subst d.
      destruct (Regex.exec true (tl hexPattern) s') as [caps'|] eqn:E.
      * intros _. exists s'. apply groups_shape in E. destruct E as [El Ef].
        split; [right; reflexivity | split; assumption].
      * intros H. exists (String "#" s'). apply groups_shape in H.
        destruct H as [El Ef]. split; [left; reflexivity | split; assumption].
    + intros H. exists (String d s'). apply groups_shape in H.
      destruct H as [El Ef]. split; [left; reflexivity | split; assumption].
Qed.

End HexToRgb.

(** C10. [hexToRgb] is total, and on every string that is not an optional
    [#] followed by exactly six hexadecimal digits it returns the black
    triple [{r: 0, g: 0, b: 0}]. *)
Theorem hexToRgb_malformed_black (hex : string) :
  ~ HexColor hex -> hexToRgb hex = black.
Proof.
  intros Hn. unfold hexToRgb.
  destruct (Regex.exec true hexPattern hex) as [caps|] eqn:E; [|reflexivity].
  exfalso. apply Hn. eapply exec_shape. exact E.
Qed.

Lemma hexToRgb_malformed_black_witness :
  ~ HexColor "#abc" /\ hexToRgb "#abc" = black.
Proof.
  assert (Hn : ~ HexColor "#abc").
  { intros (body & [E|E] & Hl & _); subst body || (inversion E; subst body);
      simpl in Hl; discriminate Hl. }
  split; [exact Hn | exact (hexToRgb_malformed_black "#abc" Hn)].
Defined.

(** ** The smoothstep mask *)

Lemma smoothstep_poly_range (m : R) : 0 <= m <= 1 -> 0 <= m * m * (3 - 2 * m) <= 1.
Proof.
  intros [H0 H1]. split.
  - apply Rmult_le_pos; [apply Rmult_le_pos; lra | lra].
  - assert (0 <= (1 - m) * (1 - m) * (1 + 2 * m)).
    { apply Rmult_le_pos; [apply Rmult_le_pos; lra | lra]. }
    lra.
Qed.

Lemma smoothstep_poly_mono (m n : R) :
  0 <= m -> m <= n -> n <= 1 -> m * m * (3 - 2 * m) <= n * n * (3 - 2 * n).
Proof.
  intros H0 Hmn H1.
  assert (E : n * n * (3 - 2 * n) - m * m * (3 - 2 * m)
              = (n - m) * (3 * (m + n) - 2 * (m * m + m * n + n * n))) by ring.
  assert (0 <= 3 * (m + n) - 2 * (m * m + m * n + n * n)).
  { assert (0 <= m * (1 - m)) by (apply Rmult_le_pos; lra).
    assert (0 <= n * (1 - n)) by (apply Rmult_le_pos; lra).
    assert (0 <= m * (1 - n)) by (apply Rmult_le_pos; lra).
    assert (0 <= n * (1 - m)) by (apply Rmult_le_pos; lra).
    lra. }
  assert (0 <= (n - m) * (3 * (m + n) - 2 * (m * m + m * n + n * n))).
  { apply Rmult_le_pos; lra. }
  lra.
Qed.

(** The band of the source, [(val - start) / (end - start)], is the band
    of the specification, [(val - (thr - feather)) / (2 * feather)]. *)
Lemma smoothstepMask_spec_form (val threshold feather : R) :
  smoothstepMask val threshold feather =
  (let band := clamp01 ((val - (threshold - feather)) / (2 * feather)) in
   band * band * (3 - 2 * band)).
Proof.
  unfold smoothstepMask. cbv zeta.
  replace (threshold + feather - (threshold - feather)) with (2 * feather) by ring.
  reflexivity.
Qed.

(** In exact arithmetic and for a positive feather, the smoothstep
    threshold mask is the smoothstep of the clamped band
    [(val - (thr - feather)) / (2 * feather)], it is non-decreasing in its
    input signal, and its output lies in [[0,1]] for every real input.
    (The rounding of the doubles can invert the masks of two neighbouring
    inputs, see [smoothstepMask_not_monotone].) *)
Theorem smoothstepMask_monotone_bounded (threshold feather : R) :
  0 < feather ->
  (forall val,
     smoothstepMask val threshold feather =
     (let band := clamp01 ((val - (threshold - feather)) / (2 * feather)) in
      band * band * (3 - 2 * band))) /\
  (forall val, 0 <= smoothstepMask val threshold feather <= 1) /\
  (forall v1 v2, v1 <= v2 ->
     smoothstepMask v1 threshold feather <= smoothstepMask v2 threshold feather).
Proof.
  intros Hf. split; [intros val; apply smoothstepMask_spec_form|]. split.
  - intros val. unfold smoothstepMask. cbv zeta.
    apply smoothstep_poly_range, clamp01_range.
  - intros v1 v2 Hv. unfold smoothstepMask. cbv zeta.
    replace (threshold + feather - (threshold - feather)) with (2 * feather) by ring.
    set (b1 := clamp01 _). set (b2 := clamp01 _).
    assert (Hb : b1 <= b2).
    { apply clamp01_mono. unfold Rdiv. apply Rmult_le_compat_r.
      - left. apply Rinv_0_lt_compat. lra.
      - lra. }
    pose proof (clamp01_range ((v1 - (threshold - feather)) / (2 * feather))) as R1.
    pose proof (clamp01_range ((v2 - (threshold - feather)) / (2 * feather))) as R2.
    fold b1 in R1. fold b2 in R2.
    apply smoothstep_poly_mono; lra.
Qed.

Lemma smoothstepMask_monotone_bounded_witness :
  0 <= smoothstepMask (-1000) (35 / 100) (15 / 100) <= 1 /\
  smoothstepMask (-1000) (35 / 100) (15 / 100) <= smoothstepMask 1000 (35 / 100) (15 / 100).
Proof.
  assert (Hf : 0 < 15 / 100) by lra.
  destruct (smoothstepMask_monotone_bounded (35 / 100) (15 / 100) Hf) as (_ & Hb & Hm).
  split; [apply Hb | apply Hm; lra].
Defined.

Lemma smoothstepMask_below (val threshold feather : R) :
  threshold - feather < threshold + feather ->
  val <= threshold - feather -> smoothstepMask val threshold feather = 0.
Proof.
  intros Hband Hval. unfold smoothstepMask. cbv zeta.
  rewrite clamp01_low; [ring|].
  assert (Hinv : 0 < / (threshold + feather - (threshold - feather)))
    by (apply Rinv_0_lt_compat; lra).
  replace 0 with (0 * / (threshold + feather - (threshold - feather))) by ring.
  unfold Rdiv. apply Rmult_le_compat_r; lra.
Qed.

Lemma smoothstepMask_above (val threshold feather : R) :
  threshold - feather < threshold + feather ->
  threshold + feather <= val -> smoothstepMask val threshold feather = 1.
Proof.
  intros Hband Hval. unfold smoothstepMask. cbv zeta.
  rewrite clamp01_high; [ring|].
  assert (Hinv : 0 < / (threshold + feather - (threshold - feather)))
    by (apply Rinv_0_lt_compat; lra).
  replace 1 with ((threshold + feather - (threshold - feather))
                  * / (threshold + feather - (threshold - feather)))
    by (field; lra).
  unfold Rdiv. apply Rmult_le_compat_r; lra.
Qed.

Lemma smoothstepMask_unit (val threshold feather : R) :
  0 <= smoothstepMask val threshold feather <= 1.
Proof.
  unfold smoothstepMask. cbv zeta. apply smoothstep_poly_range, clamp01_range.
Qed.

Lemma openBand_positive (threshold feather : R) :
  openBand threshold feather -> threshold - feather < threshold + feather.
Proof.
  unfold openBand. intros H. pose proof (Rabs_pos threshold) as Habs.
  assert (0 <= Rabs threshold / 4503599627370496) by lra. lra.
Qed.




(** ** The vertical mask *)

Lemma verticalMask_full_height (p : Params) (rows y : Z) :
  maskHeight p = 1 ->
  verticalMask p rows y = clamp01 ((IZR y / IZR rows) / maskFeatherY p).
Proof.
  intros H. unfold verticalMask. cbv zeta. rewrite H.
  replace (IZR y / IZR rows - (1 - 1)) with (IZR y / IZR rows) by ring.
  reflexivity.
Qed.

(** C1, as the code has it. With [maskHeight = 1] and a positive feather
    the mask of row [y] is [clamp(ny / maskFeatherY, 0, 1)]: it is [1] on
    the rows with [ny >= maskFeatherY], positive on every row but the
    first, and [0] on row [0]. With [maskHeight = 0.3] and
    [maskFeatherY = 0.2] every row with [ny < 0.5] has the mask [0]. *)
Theorem verticalMask_rows (p : Params) (rows y : Z) :
  (0 < rows)%Z -> (0 <= y < rows)%Z ->
  let ny := IZR y / IZR rows in
  (maskHeight p = 1 -> 0 < maskFeatherY p ->
     verticalMask p rows y = clamp01 (ny / maskFeatherY p) /\
     (maskFeatherY p <= ny -> verticalMask p rows y = 1) /\
     ((0 < y)%Z -> 0 < verticalMask p rows y) /\
     (y = 0%Z -> verticalMask p rows y = 0)) /\
  (maskHeight p = 3 / 10 -> maskFeatherY p = 2 / 10 -> ny < 5 / 10 ->
     verticalMask p rows y = 0).
Proof.
  intros Hrows Hy ny.
  assert (HR : 0 < IZR rows) by (apply IZR_lt; exact Hrows).
  assert (Hny : 0 <= ny).
  { unfold ny, Rdiv. apply Rmult_le_pos.
    - apply IZR_le. lia.
    - left. apply Rinv_0_lt_compat. exact HR. }
  split.
  - intros Hm Hf. rewrite (verticalMask_full_height p rows y Hm). fold ny.
    assert (Hinv : 0 < / maskFeatherY p) by (apply Rinv_0_lt_compat; exact Hf).
    split; [reflexivity|]. split; [|split].
    + intros Hge. apply clamp01_high.
      apply Rmult_le_reg_r with (maskFeatherY p); [exact Hf|].
      unfold Rdiv. rewrite Rmult_assoc, Rinv_l by lra. lra.
    + intros Hpos.
      assert (Hnypos : 0 < ny).
      { unfold ny, Rdiv. apply Rmult_lt_0_compat.
        - apply IZR_lt. exact Hpos.
        - apply Rinv_0_lt_compat. exact HR. }
      assert (Hq : 0 < ny / maskFeatherY p).
      { unfold Rdiv. apply Rmult_lt_0_compat; assumption. }
      destruct (Rle_dec 1 (ny / maskFeatherY p)) as [H1|H1].
      * rewrite clamp01_high by exact H1. lra.
      * rewrite clamp01_id by lra. exact Hq.
    + intros Hy0. apply clamp01_low. unfold ny. rewrite Hy0.
      unfold Rdiv. rewrite !Rmult_0_l. lra.
  - intros Hm Hf Hlt. unfold verticalMask. cbv zeta. fold ny.
    rewrite Hm, Hf. apply clamp01_low.
    replace ((ny - (1 - 3 / 10)) / (2 / 10)) with ((ny - 7 / 10) * 5) by field.
    lra.
Qed.

Lemma verticalMask_rows_witness :
  verticalMask defaultParams 10 5 = 1 /\ verticalMask defaultParams 10 0 = 0.
Proof.
  assert (Hrows : (0 < 10)%Z) by lia.
  assert (Hm : maskHeight defaultParams = 1) by reflexivity.
  assert (Hf : 0 < maskFeatherY defaultParams) by (simpl; lra).
  split.
  - assert (Hy : (0 <= 5 < 10)%Z) by lia.
    destruct (verticalMask_rows defaultParams 10 5 Hrows Hy) as [H1 _].
    destruct (H1 Hm Hf) as (_ & Hfull & _).
    apply Hfull. simpl. lra.
  - assert (Hy : (0 <= 0 < 10)%Z) by lia.
    destruct (verticalMask_rows defaultParams 10 0 Hrows Hy) as [H1 _].
    destruct (H1 Hm Hf) as (_ & _ & _ & Hzero).
    apply Hzero. reflexivity.
Defined.

(** C1, as the specification states it, fails: with [maskHeight = 1]
    (and the default feather [0.2]) the first of ten rows has the mask [0]
    and is skipped, and the second has the mask [1/2]. *)
Lemma verticalMask_full_height_not_one :
  maskHeight defaultParams = 1 /\
  verticalMask defaultParams 10 0 = 0 /\
  verticalMask defaultParams 10 1 = 1 / 2 /\
  ~ (forall rows y, (0 < rows)%Z -> (0 <= y < rows)%Z ->
       verticalMask defaultParams rows y = 1).
Proof.
  assert (H0 : verticalMask defaultParams 10 0 = 0).
  { rewrite verticalMask_full_height by reflexivity.
    apply clamp01_low. simpl. lra. }
  assert (H1 : verticalMask defaultParams 10 1 = 1 / 2).
  { rewrite verticalMask_full_height by reflexivity.
    simpl maskFeatherY.
    replace (1 / 10 / (2 / 10)) with (1 / 2) by field.
    apply clamp01_id. lra. }
  repeat split; try assumption.
  intros H. specialize (H 10%Z 0%Z ltac:(lia) ltac:(lia)). rewrite H0 in H. lra.
Qed.

(** ** The temporal smoother *)

(** The distance to the target shrinks by the factor [1 - smoothing] at
    every frame. *)
Lemma activationAfter_closed (p : Params) (T : R) (n : nat) :
  T - activationAfter p T n = T * (1 - smoothing p) ^ n.
Proof.
  induction n as [|k IH]; simpl.
  - ring.
  - unfold smooth.
    replace (T - (activationAfter p T k + (T - activationAfter p T k) * smoothing p))
      with ((T - activationAfter p T k) * (1 - smoothing p)) by ring.
    rewrite IH. ring.
Qed.

(** The recurrence over exact reals. From [a(0) = 0] and a constant
    target [T] in [[0,1]], for a smoothing factor in [(0,1]], the sequence
    [a(n+1) = a(n) + (T - a(n)) * s] never decreases, never exceeds [T] and
    converges to [T]; with the factor [1] it is [T] from the first step
    on.  (The activations the array holds are rounded at each frame: see
    [storedSmooth].) *)
Theorem smoother_converges_monotonically (p : Params) (T : R) :
  0 < smoothing p <= 1 -> 0 <= T <= 1 ->
  (forall n, activationAfter p T n <= activationAfter p T (S n)) /\
  (forall n, activationAfter p T n <= T) /\
  Un_cv (activationAfter p T) T /\
  (smoothing p = 1 -> forall n, activationAfter p T (S n) = T).
Proof.
  intros [Hs0 Hs1] [HT0 HT1].
  assert (Hq : 0 <= 1 - smoothing p < 1) by lra.
  assert (Hpow : forall n, 0 <= (1 - smoothing p) ^ n <= 1).
  { intros n. split.
    - apply pow_le. lra.
    - apply Rle_trans with (1 ^ n); [apply pow_incr; lra | rewrite pow1; lra]. }
  assert (Hle : forall n, activationAfter p T n <= T).
  { intros n. pose proof (activationAfter_closed p T n) as E.
    assert (0 <= T * (1 - smoothing p) ^ n).
    { apply Rmult_le_pos; [lra | apply Hpow]. }
    lra. }
  split; [|split; [exact Hle|split]].
  - intros n. simpl. unfold smooth.
    assert (0 <= (T - activationAfter p T n) * smoothing p).
    { apply Rmult_le_pos; [specialize (Hle n); lra | lra]. }
    lra.
  - intros eps Heps.
    assert (Habs : Rabs (1 - smoothing p) < 1).
    { rewrite Rabs_pos_eq; lra. }
    destruct (pow_lt_1_zero (1 - smoothing p) Habs eps Heps) as [N HN].
    exists N. intros n Hn. specialize (HN n Hn).
    unfold R_dist. rewrite Rabs_minus_sym, activationAfter_closed.
    rewrite Rabs_mult, (Rabs_pos_eq T) by lra.
    assert (0 <= Rabs ((1 - smoothing p) ^ n)) by apply Rabs_pos.
    assert (T * Rabs ((1 - smoothing p) ^ n) <= 1 * Rabs ((1 - smoothing p) ^ n)).
    { apply Rmult_le_compat_r; lra. }
    lra.
  - intros Hone n. simpl. unfold smooth. rewrite Hone. ring.
Qed.

Lemma smoother_converges_monotonically_witness :
  activationAfter defaultParams (1 / 2) 3 <= 1 / 2 /\
  Un_cv (activationAfter defaultParams (1 / 2)) (1 / 2).
Proof.
  assert (Hs : 0 < smoothing defaultParams <= 1) by (simpl; lra).
  assert (HT : 0 <= 1 / 2 <= 1) by lra.
  destruct (smoother_converges_monotonically defaultParams (1 / 2) Hs HT)
    as (_ & Hle & Hcv & _).
  split; [apply Hle | exact Hcv].
Defined.


(** ** The colour resolver *)

Lemma lerp_channel_between (a c : Z) (t : R) :
  0 <= t <= 1 ->
  betweenZ a (JsMath.round (IZR a + (IZR c - IZR a) * t)) c.
Proof.
  intros [Ht0 Ht1]. unfold betweenZ. apply round_between.
  destruct (Z_le_gt_dec a c) as [Hac|Hac].
  - rewrite Z.min_l, Z.max_r by lia. apply IZR_le in Hac.
    assert (0 <= (IZR c - IZR a) * t) by (apply Rmult_le_pos; lra).
    assert (0 <= (IZR c - IZR a) * (1 - t)) by (apply Rmult_le_pos; lra).
    lra.
  - rewrite Z.min_r, Z.max_l by lia.
    assert (Hca : IZR c <= IZR a) by (apply IZR_le; lia).
    assert (0 <= (IZR a - IZR c) * t) by (apply Rmult_le_pos; lra).
    assert (0 <= (IZR a - IZR c) * (1 - t)) by (apply Rmult_le_pos; lra).
    lra.
Qed.

Lemma betweenZ_left (a c : Z) : betweenZ a a c.
Proof. unfold betweenZ. lia. Qed.

Lemma betweenZ_right (a c : Z) : betweenZ a c c.
Proof. unfold betweenZ. lia. Qed.

Lemma betweenZ_same (a x : Z) : betweenZ a x a -> x = a.
Proof. unfold betweenZ. lia. Qed.

Lemma accentMix_cases (p : Params) (current : R) :
  let x := current * accentMixStrength p in
  (x <= 1 /\ accentMix p current = x) \/ (1 < x /\ accentMix p current = 1).
Proof.
  cbv zeta. unfold accentMix, JsMath.min, Rmin.
  destruct (Rle_dec 1 (current * accentMixStrength p)); [|left; lra].
  destruct (Req_dec 1 (current * accentMixStrength p)); [left|right]; lra.
Qed.

(** The lower clamp the source leaves out changes nothing: a negative
    [mix] and the [mix] [0] both select the base colour. *)
Lemma mixColor_clamp (p : Params) (pal : Palette) (type : nat) (current : R) :
  mixColor p pal type (accentMix p current)
  = mixColor p pal type (clamp01 (current * accentMixStrength p)).
Proof.
  unfold clamp01, JsMath.max. fold (accentMix p current).
  unfold Rmax. destruct (Rle_dec 0 (accentMix p current)) as [H|H]; [reflexivity|].
  unfold mixColor.
  destruct (Rlt_dec (accentMix p current) (1 / 100)); [|lra].
  destruct (Rlt_dec 0 (1 / 100)); [reflexivity | lra].
Qed.

(** C6, as the code has it. For a cell that is not gray the colour is
    chosen from [mix = clamp(activation * accentMixStrength, 0, 1)];
    [mix = 0] gives the base colour string, [activation *
    accentMixStrength >= 1] gives the accent colour string, and for
    [0 < mix < 1] every channel lies between the base and the accent
    channel, ends included. *)
Theorem cellColor_accent (p : Params) (type : nat) (current : R) :
  type <> 0%nat ->
  let pal := updatePalette p in
  let accent := if (type =? 1)%nat then yellow pal else pink pal in
  let accentStr := if (type =? 1)%nat then accentYellowStr p else accentPinkStr p in
  let mix := clamp01 (current * accentMixStrength p) in
  let out := cellColor p pal type current in
  out = mixColor p pal type mix /\
  (mix = 0 -> out = ColorStr (baseGrayStr p) /\ styleRGB out = gray pal) /\
  (1 <= current * accentMixStrength p ->
     out = ColorStr accentStr /\ styleRGB out = accent) /\
  (0 < mix < 1 ->
     betweenZ (r (gray pal)) (r (styleRGB out)) (r accent) /\
     betweenZ (g (gray pal)) (g (styleRGB out)) (g accent) /\
     betweenZ (b (gray pal)) (b (styleRGB out)) (b accent)).
Proof.
  intros Hty pal accent accentStr mix out.
  assert (Hout : out = mixColor p pal type (accentMix p current)).
  { unfold out, cellColor. destruct (Nat.eqb_spec type 0); [contradiction|reflexivity]. }
  assert (Hgray : hexToRgb (baseGrayStr p) = gray pal) by reflexivity.
  assert (Hacc : hexToRgb accentStr = accent).
  { unfold accentStr, accent. destruct (type =? 1)%nat; reflexivity. }
  pose proof (clamp01_range (current * accentMixStrength p)) as Hrange.
  fold mix in Hrange.
  destruct (accentMix_cases p current) as [[Hx Hm]|[Hx Hm]]; cbv zeta in Hx.
  - (* activation * accentMixStrength <= 1 *)
    split; [rewrite Hout; apply mixColor_clamp|].
    split; [|split].
    + intros H0.
      assert (Hle : current * accentMixStrength p <= 0).
      { destruct (Rle_dec (current * accentMixStrength p) 0) as [|Hn]; [assumption|].
        unfold mix in H0. rewrite clamp01_id in H0 by lra. lra. }
      assert (E : out = ColorStr (baseGrayStr p)).
      { rewrite Hout. unfold mixColor. rewrite Hm.
        destruct (Rlt_dec (current * accentMixStrength p) (1 / 100)); [reflexivity|lra]. }
      split; [exact E | rewrite E; exact Hgray].
    + intros H1.
      assert (E : out = ColorStr accentStr).
      { rewrite Hout. unfold mixColor. rewrite Hm.
        destruct (Rlt_dec (current * accentMixStrength p) (1 / 100)); [lra|].
        destruct (Rgt_dec (current * accentMixStrength p) (99 / 100)); [reflexivity|lra]. }
      split; [exact E | rewrite E; exact Hacc].
    + intros [Hlo Hhi].
      assert (Hpos : 0 < current * accentMixStrength p).
      { destruct (Rlt_dec 0 (current * accentMixStrength p)) as [|Hn]; [assumption|].
        unfold mix in Hlo. rewrite clamp01_low in Hlo by lra. lra. }
      rewrite Hout. unfold mixColor. rewrite Hm.
      destruct (Rlt_dec (current * accentMixStrength p) (1 / 100)).
      { simpl styleRGB. rewrite Hgray. repeat split; apply betweenZ_left. }
      destruct (Rgt_dec (current * accentMixStrength p) (99 / 100)).
      { simpl styleRGB. fold accentStr. rewrite Hacc.
        repeat split; apply betweenZ_right. }
      unfold lerpColor. simpl styleRGB. fold accent. cbn [r g b].
      repeat split; apply lerp_channel_between; lra.
  - (* activation * accentMixStrength > 1 *)
    assert (E : out = ColorStr accentStr).
    { rewrite Hout. unfold mixColor. rewrite Hm.
      destruct (Rlt_dec 1 (1 / 100)); [lra|].
      destruct (Rgt_dec 1 (99 / 100)); [reflexivity|lra]. }
    assert (Hmix : mix = 1) by (unfold mix; apply clamp01_high; lra).
    split; [rewrite Hout; apply mixColor_clamp|].
    split; [intros H0; lra|].
    split; [intros _; split; [exact E | rewrite E; exact Hacc]|].
    intros [_ Hlt]. lra.
Qed.

Lemma cellColor_accent_witness :
  cellColor defaultParams (updatePalette defaultParams) 1 0
    = ColorStr (baseGrayStr defaultParams) /\
  cellColor defaultParams (updatePalette defaultParams) 1 1
    = ColorStr (accentYellowStr defaultParams) /\
  betweenZ 217 (r (styleRGB (cellColor defaultParams (updatePalette defaultParams) 1 (1 / 2)))) 245.
Proof.
  assert (Hty : 1%nat <> 0%nat) by discriminate.
  assert (Hc : forall x, 0 <= x <= 1 ->
             clamp01 (x * accentMixStrength defaultParams) = x).
  { intros x Hx. simpl accentMixStrength. rewrite Rmult_1_r. apply clamp01_id. exact Hx. }
  split; [|split].
  - destruct (cellColor_accent defaultParams 1 0 Hty) as (_ & H0 & _).
    apply H0. apply Hc. lra.
  - destruct (cellColor_accent defaultParams 1 1 Hty) as (_ & _ & H1 & _).
    apply H1. simpl. lra.
  - destruct (cellColor_accent defaultParams 1 (1 / 2) Hty) as (_ & _ & _ & Hb).
    apply Hb. rewrite Hc by lra. lra.
Defined.

(** C6, as the specification states it, fails: the channels of an
    intermediate [mix] are not always strictly between the base and the
    accent channels. With the default palette (base red [217], yellow red
    [245]) the [mix] [0.005] is drawn with the base colour string, and the
    [mix] [0.01] is interpolated to [217.28], which rounds to [217]. *)
Lemma cellColor_intermediate_not_strict :
  let p := defaultParams in
  let pal := updatePalette p in
  r (gray pal) = 217%Z /\ r (yellow pal) = 245%Z /\
  clamp01 (1 / 200 * accentMixStrength p) = 1 / 200 /\
  r (styleRGB (cellColor p pal 1 (1 / 200))) = 217%Z /\
  clamp01 (1 / 100 * accentMixStrength p) = 1 / 100 /\
  cellColor p pal 1 (1 / 100) = RgbStr 217 215 210.
Proof.
  cbv zeta.
  assert (Hmix : forall x, x <= 1 -> accentMix defaultParams x = x).
  { intros x Hx. unfold accentMix, JsMath.min, Rmin. simpl accentMixStrength.
    rewrite Rmult_1_r. destruct (Rle_dec 1 x); lra. }
  assert (Hc : forall x, 0 <= x <= 1 ->
             clamp01 (x * accentMixStrength defaultParams) = x).
  { intros x Hx. simpl accentMixStrength. rewrite Rmult_1_r. apply clamp01_id. exact Hx. }
  split; [reflexivity|]. split; [reflexivity|].
  split; [apply Hc; lra|]. split; [|split; [apply Hc; lra|]].
  - unfold cellColor. simpl Nat.eqb. cbv iota. unfold mixColor.
    rewrite Hmix by lra.
    destruct (Rlt_dec (1 / 200) (1 / 100)); [reflexivity | lra].
  - unfold cellColor. simpl Nat.eqb. cbv iota. unfold mixColor.
    rewrite Hmix by lra.
    destruct (Rlt_dec (1 / 100) (1 / 100)); [lra|].
    destruct (Rgt_dec (1 / 100) (99 / 100)); [lra|].
    simpl Nat.eqb. cbv iota.
    change (gray (updatePalette defaultParams)) with (mkRGB 217 215 210).
    change (yellow (updatePalette defaultParams)) with (mkRGB 245 247 217).
    unfold lerpColor. cbn [r g b].
    f_equal; apply round_unique; lra.
Qed.

(** ** Arrays and loops *)

Lemma set_nat_length {A : Type} (arr : list A) (i : nat) (v : A) :
  List.length (set_nat arr i v) = List.length arr.
Proof.
  revert i. induction arr as [|hd tl IH]; intros [|k]; simpl; auto.
Qed.

Lemma set_length {A : Type} (arr : list A) (i : Z) (v : A) :
  List.length (set arr i v) = List.length arr.
Proof.
  unfold set. destruct (i <? 0)%Z; [reflexivity | apply set_nat_length].
Qed.

Lemma set_nat_nth_other {A : Type} (zero : A) (arr : list A) (i j : nat) (v : A) :
  i <> j -> nth j (set_nat arr i v) zero = nth j arr zero.
Proof.
  revert i j. induction arr as [|hd tl IH]; intros [|i] [|j] H; simpl; auto;
    try contradiction.
Qed.

Lemma set_nat_nth_same {A : Type} (zero : A) (arr : list A) (i : nat) (v : A) :
  (i < List.length arr)%nat -> nth i (set_nat arr i v) zero = v.
Proof.
  revert i. induction arr as [|hd tl IH]; intros [|i] H; simpl in *; try lia; auto.
  apply IH. lia.
Qed.

Lemma get_set_other {A : Type} (zero : A) (arr : list A) (i j : Z) (v : A) :
  (0 <= j)%Z -> i <> j -> get zero (set arr i v) j = get zero arr j.
Proof.
  intros Hj Hij. unfold get, set.
  destruct (Z.ltb_spec i 0); [reflexivity|].
  apply set_nat_nth_other. lia.
Qed.

Lemma get_set_same {A : Type} (zero : A) (arr : list A) (i : Z) (v : A) :
  (0 <= i < Z.of_nat (List.length arr))%Z -> get zero (set arr i v) i = v.
Proof.
  intros Hi. unfold get, set.
  destruct (Z.ltb_spec i 0); [lia|].
  apply set_nat_nth_same. lia.
Qed.

Lemma set_nat_Forall {A : Type} (P : A -> Prop) (arr : list A) (i : nat) (v : A) :
  Forall P arr -> P v -> Forall P (set_nat arr i v).
Proof.
  intros Ha Hv. revert i.
  induction Ha as [|hd tl Hhd Htl IH]; intros [|k]; simpl; constructor; auto.
Qed.

Lemma set_Forall {A : Type} (P : A -> Prop) (arr : list A) (i : Z) (v : A) :
  Forall P arr -> P v -> Forall P (set arr i v).
Proof.
  intros Ha Hv. unfold set. destruct (i <? 0)%Z; [assumption|].
  apply set_nat_Forall; assumption.
Qed.

Lemma get_Forall {A : Type} (P : A -> Prop) (zero : A) (arr : list A) (i : Z) :
  Forall P arr -> P zero -> P (get zero arr i).
Proof.
  intros Ha Hz. unfold get.
  destruct (Nat.lt_ge_cases (Z.to_nat i) (List.length arr)) as [Hlt|Hge].
  - rewrite Forall_forall in Ha. apply Ha. apply nth_In. exact Hlt.
  - rewrite nth_overflow by exact Hge. exact Hz.
Qed.

Lemma newTypedArray_some {A : Type} (zero : A) (n : Z) (arr : list A) :
  newTypedArray zero n = Some arr ->
  (0 <= n)%Z /\ arr = repeat zero (Z.to_nat n).
Proof.
  unfold newTypedArray. destruct (Z.ltb_spec n 0) as [Hn|Hn]; [discriminate|].
  intros H. inversion H. split; [lia | reflexivity].
Qed.

(** The rule of a counted loop: an invariant of the body that holds
    before the loop holds after it. *)
Lemma for_loop_invariant {S : Type} (P : Z -> S -> Prop) (body : Z -> S -> S) :
  forall (n : nat) (from : Z) (s : S),
    P from s ->
    (forall i s', (from <= i < from + Z.of_nat n)%Z -> P i s' -> P (i + 1)%Z (body i s')) ->
    P (from + Z.of_nat n)%Z (for_loop n from body s).
Proof.
  induction n as [|k IH]; intros from s H0 Hstep.
  - simpl. rewrite Z.add_0_r. exact H0.
  - simpl for_loop.
    replace (from + Z.of_nat (Datatypes.S k))%Z with (from + 1 + Z.of_nat k)%Z by lia.
    apply IH.
    + apply Hstep; [lia | exact H0].
    + intros i s' Hi. apply Hstep. lia.
Qed.

Lemma for_upto_invariant {S : Type} (P : Z -> S -> Prop) (body : Z -> S -> S)
  (bound : Z) (s : S) :
  (0 <= bound)%Z ->
  P 0%Z s ->
  (forall i s', (0 <= i < bound)%Z -> P i s' -> P (i + 1)%Z (body i s')) ->
  P bound (for_upto bound body s).
Proof.
  intros Hb H0 Hstep. unfold for_upto.
  replace bound with (0 + Z.of_nat (Z.to_nat bound))%Z at 1 by lia.
  apply for_loop_invariant; [exact H0|].
  intros i s' Hi. apply Hstep. lia.
Qed.

(** A loop whose bound is not positive does not run. *)
Lemma for_upto_nonpos {S : Type} (body : Z -> S -> S) (bound : Z) (s : S) :
  (bound <= 0)%Z -> for_upto bound body s = s.
Proof.
  intros H. unfold for_upto. replace (Z.to_nat bound) with O by lia. reflexivity.
Qed.

(** A property of the state that every iteration keeps. *)
Lemma for_upto_preserves {S : Type} (Q : S -> Prop) (body : Z -> S -> S)
  (bound : Z) (s : S) :
  Q s -> (forall i s', (0 <= i < bound)%Z -> Q s' -> Q (body i s')) ->
  Q (for_upto bound body s).
Proof.
  intros H0 Hstep.
  destruct (Z_le_gt_dec bound 0) as [Hle|Hgt].
  - rewrite for_upto_nonpos by exact Hle. exact H0.
  - apply (for_upto_invariant (fun _ => Q)); [lia | exact H0 | exact Hstep].
Qed.

Lemma for_loop_ext {S : Type} (f h : Z -> S -> S) :
  (forall i s, f i s = h i s) ->
  forall n from s, for_loop n from f s = for_loop n from h s.
Proof.
  intros E. induction n as [|k IH]; intros from s; simpl; [reflexivity|].
  rewrite E. apply IH.
Qed.

(** ** The grid builder *)

Section InitGrid.

Variable L : Libs.

(** The state of the array allocations and of the loop of [initGrid]. *)
Let start (n : Z) : BuildState L :=
  mkBuild (seedrandom L "grid-layout-fixed")
    (repeat 0%nat (Z.to_nat n)) (repeat 0 (Z.to_nat n)) (repeat 0 (Z.to_nat n)).

(** [initGrid] throws exactly when the product of the two counts is
    negative; otherwise it installs the grid the loop leaves. *)
Lemma initGrid_cases (p : Params) (width height : R) (c : Component) :
  let cols := JsMath.ceil (width / (pixelSize p + gap p)) in
  let rows := JsMath.ceil (height / (pixelSize p + gap p)) in
  let s := for_upto (cols * rows) (initCell L p cols rows) (start (cols * rows)) in
  ((cols * rows < 0)%Z /\
   initGrid L p width height c
     = (mkComponent (updatePalette p) (gridData c), ThrowRangeError)) \/
  ((0 <= cols * rows)%Z /\
   initGrid L p width height c
     = (mkComponent (updatePalette p)
          (Some (mkGrid cols rows (b_targetTypes s) (b_biases s) (b_activations s))),
        Normal)).
Proof.
  intros cols rows s. unfold initGrid. cbv zeta.
  fold cols rows. unfold newTypedArray.
  destruct (Z.ltb_spec (cols * rows) 0) as [Hneg|Hpos].
  - left. split; [exact Hneg | reflexivity].
  - right. split; [exact Hpos | reflexivity].
Qed.

Lemma initCell_lengths (p : Params) (cols rows i : Z) (s : BuildState L) :
  List.length (b_targetTypes (initCell L p cols rows i s)) = List.length (b_targetTypes s) /\
  List.length (b_biases (initCell L p cols rows i s)) = List.length (b_biases s) /\
  List.length (b_activations (initCell L p cols rows i s)) = List.length (b_activations s).
Proof.
  unfold initCell. destruct (next L (rng s)) as [u rng1].
  destruct (hasAccentNeighbor _ _ _ _ _).
  - simpl. rewrite !set_length. auto.
  - destruct (next L rng1) as [v rng2].
    destruct (Rlt_dec _ _); [|destruct (Rlt_dec _ _)];
      simpl; rewrite !set_length; auto.
Qed.

Lemma initLoop_lengths (p : Params) (cols rows n : Z) :
  let s := for_upto n (initCell L p cols rows) (start n) in
  List.length (b_targetTypes s) = Z.to_nat n /\
  List.length (b_biases s) = Z.to_nat n /\
  List.length (b_activations s) = Z.to_nat n.
Proof.
  cbv zeta.
  apply (for_upto_preserves
           (fun s => List.length (b_targetTypes s) = Z.to_nat n /\
                     List.length (b_biases s) = Z.to_nat n /\
                     List.length (b_activations s) = Z.to_nat n)).
  - unfold start. simpl. rewrite !repeat_length. auto.
  - intros i s' _ (H1 & H2 & H3).
    destruct (initCell_lengths p cols rows i s') as (E1 & E2 & E3).
    rewrite E1, E2, E3. auto.
Qed.

(** The loop reads the parameters only for the two probabilities. *)
Lemma initCell_params (p1 p2 : Params) (cols rows i : Z) (s : BuildState L) :
  accentYellowProb p1 = accentYellowProb p2 ->
  accentPinkProb p1 = accentPinkProb p2 ->
  initCell L p1 cols rows i s = initCell L p2 cols rows i s.
Proof. intros Hy Hp. unfold initCell. rewrite Hy, Hp. reflexivity. Qed.

(** C4. Two calls of the builder with the same surface, cell size, gap
    and accent probabilities, from any two states of the component,
    complete alike and leave the same [targetTypes] and [biases]: the
    generator is made anew from the constant seed in each call. *)
Theorem initGrid_deterministic (p1 p2 : Params) (width height : R) (c1 c2 : Component) :
  pixelSize p1 = pixelSize p2 ->
  gap p1 = gap p2 ->
  accentYellowProb p1 = accentYellowProb p2 ->
  accentPinkProb p1 = accentPinkProb p2 ->
  let r1 := initGrid L p1 width height c1 in
  let r2 := initGrid L p2 width height c2 in
  snd r1 = snd r2 /\
  (snd r1 = Normal ->
   exists g1 g2,
     gridData (fst r1) = Some g1 /\ gridData (fst r2) = Some g2 /\
     cols g1 = cols g2 /\ rows g1 = rows g2 /\
     targetTypes g1 = targetTypes g2 /\ biases g1 = biases g2).
Proof.
  intros Hsize Hgap Hy Hp r1 r2. unfold r1, r2.
  destruct (initGrid_cases p1 width height c1) as [[N1 E1]|[N1 E1]];
    destruct (initGrid_cases p2 width height c2) as [[N2 E2]|[N2 E2]];
    rewrite E1, E2; rewrite <- Hsize, <- Hgap in *; try lia.
  - split; [reflexivity | discriminate].
  - split; [reflexivity|]. intros _.
    eexists. eexists. split; [reflexivity|]. split; [reflexivity|].
    cbn [cols rows targetTypes biases].
    assert (E : forall n from s,
               for_loop n from
                 (initCell L p1 (JsMath.ceil (width / (pixelSize p1 + gap p1)))
                    (JsMath.ceil (height / (pixelSize p1 + gap p1)))) s
               = for_loop n from
                   (initCell L p2 (JsMath.ceil (width / (pixelSize p1 + gap p1)))
                      (JsMath.ceil (height / (pixelSize p1 + gap p1)))) s).
    { apply for_loop_ext. intros i s. apply initCell_params; assumption. }
    unfold for_upto. rewrite E. auto.
Qed.

End InitGrid.

Lemma ceil_100_8 : JsMath.ceil (100 / (pixelSize defaultParams + gap defaultParams)) = 13%Z.
Proof. apply ceil_unique. simpl. lra. Qed.

Lemma initGrid_deterministic_witness :
  exists g1 g2,
    gridData (fst (initGrid sampleLibs defaultParams 100 100 initialComponent)) = Some g1 /\
    gridData (fst (initGrid sampleLibs defaultParams 100 100
                     (mkComponent (updatePalette defaultParams)
                        (Some (mkGrid 1 1 [1%nat] [1 / 2] [1 / 4]))))) = Some g2 /\
    targetTypes g1 = targetTypes g2 /\ biases g1 = biases g2.
Proof.
  destruct (initGrid_deterministic sampleLibs defaultParams defaultParams 100 100
              initialComponent
              (mkComponent (updatePalette defaultParams)
                 (Some (mkGrid 1 1 [1%nat] [1 / 2] [1 / 4])))
              eq_refl eq_refl eq_refl eq_refl) as [_ H].
  assert (Hn : snd (initGrid sampleLibs defaultParams 100 100 initialComponent) = Normal).
  { destruct (initGrid_cases sampleLibs defaultParams 100 100 initialComponent)
      as [[N E]|[N E]]; rewrite E; [|reflexivity].
    rewrite ceil_100_8 in N. lia. }
  destruct (H Hn) as (g1 & g2 & E1 & E2 & _ & _ & Ht & Hb).
  exists g1, g2. auto.
Defined.

(** ** Degenerate surfaces *)

Lemma ceil_zero (x pitch : R) : 0 < pitch -> - pitch < x <= 0 -> JsMath.ceil (x / pitch) = 0%Z.
Proof.
  intros Hp [H1 H2]. apply ceil_unique.
  assert (Hinv : 0 < / pitch) by (apply Rinv_0_lt_compat; exact Hp).
  assert (E : - pitch * / pitch = -1) by (field; lra).
  split.
  - unfold Rdiv. replace (0 - 1) with (- pitch * / pitch) by lra.
    apply Rmult_lt_compat_r; assumption.
  - unfold Rdiv. replace 0 with (0 * / pitch) by ring.
    apply Rmult_le_compat_r; lra.
Qed.

(** A frame on a grid without columns or without rows draws no cell and
    leaves the grid as it is. *)
Lemma draw_empty_grid (L : Libs) (q : Params) (reducedMotion : bool)
  (canvas : option Canvas) (time : R) (pal : Palette) (gd : GridData) :
  (cols gd <= 0)%Z \/ (rows gd <= 0)%Z ->
  draw L q reducedMotion canvas time (mkComponent pal (Some gd))
  = (mkComponent pal (Some gd), clearOps pal canvas).
Proof.
  intros Hempty. unfold draw. destruct canvas as [cv|]; [|reflexivity].
  cbn [gridData palette clearOps].
  set (s0 := mkDraw gd _).
  set (t := if reducedMotion then 0 else time * (1 / 1000)).
  assert (E : for_upto (rows gd) (drawRow L q pal t) s0 = s0).
  { destruct Hempty as [Hc|Hr].
    - apply (for_upto_preserves (fun s => s = s0)); [reflexivity|].
      intros y s' _ ->. unfold drawRow.
      destruct (Rle_dec _ 0); [reflexivity|].
      apply for_upto_nonpos. exact Hc.
    - apply for_upto_nonpos. exact Hr. }
  rewrite E. reflexivity.
Qed.

(** C2, as the code has it. With a positive pitch, a surface whose width
    or height is zero, or negative and above [- pitch], builds an empty
    grid ([cols = 0] or [rows = 0], no cell) without a fault, and a frame
    on it clears the background, draws no cell and changes nothing. *)
Theorem initGrid_degenerate_empty (L : Libs) (p : Params) (width height : R)
  (c : Component) :
  0 < pixelSize p + gap p ->
  - (pixelSize p + gap p) < width <= 0 \/ - (pixelSize p + gap p) < height <= 0 ->
  exists gd,
    initGrid L p width height c = (mkComponent (updatePalette p) (Some gd), Normal) /\
    (cols gd = 0%Z \/ rows gd = 0%Z) /\
    targetTypes gd = [] /\ biases gd = [] /\ activations gd = [] /\
    forall q reducedMotion canvas time,
      draw L q reducedMotion canvas time (mkComponent (updatePalette p) (Some gd))
      = (mkComponent (updatePalette p) (Some gd), clearOps (updatePalette p) canvas).
Proof.
  intros Hpitch Hdeg.
  set (cs := JsMath.ceil (width / (pixelSize p + gap p))).
  set (rs := JsMath.ceil (height / (pixelSize p + gap p))).
  assert (Hzero : cs = 0%Z \/ rs = 0%Z).
  { destruct Hdeg as [Hw|Hh]; [left|right]; apply ceil_zero; assumption. }
  assert (Hn : (cs * rs = 0)%Z) by (destruct Hzero as [-> | ->]; lia).
  destruct (initGrid_cases L p width height c) as [[N E]|[N E]];
    fold cs rs in N, E; [lia|].
  rewrite Hn in E. rewrite for_upto_nonpos in E by lia. cbn in E.
  exists (mkGrid cs rs [] [] []).
  split; [exact E|]. split; [exact Hzero|].
  repeat (split; [reflexivity|]).
  intros q reducedMotion canvas time. apply draw_empty_grid.
  cbn [cols rows]. lia.
Qed.

Lemma initGrid_degenerate_empty_witness :
  exists gd,
    initGrid sampleLibs defaultParams 0 100 initialComponent
    = (mkComponent (updatePalette defaultParams) (Some gd), Normal) /\
    (cols gd = 0%Z \/ rows gd = 0%Z) /\ targetTypes gd = [].
Proof.
  assert (Hpitch : 0 < pixelSize defaultParams + gap defaultParams) by (simpl; lra).
  assert (Hdeg : - (pixelSize defaultParams + gap defaultParams) < 0 <= 0 \/
                 - (pixelSize defaultParams + gap defaultParams) < 100 <= 0)
    by (left; simpl; lra).
  destruct (initGrid_degenerate_empty sampleLibs defaultParams 0 100 initialComponent
              Hpitch Hdeg) as (gd & E & Hz & Ht & _).
  exists gd. auto.
Defined.

Lemma ceil_neg100_8 :
  JsMath.ceil (-100 / (pixelSize defaultParams + gap defaultParams)) = (-12)%Z.
Proof. apply ceil_unique. simpl. lra. Qed.

(** C2, as the specification states it, fails. With the pitch [8], the
    surface [-100 x 100] has [cols = -12], [rows = 13]: the allocation of
    [-156] cells throws [RangeError]. The surface [-100 x -100] has
    [cols = rows = -12]: the builder completes with arrays of [144]
    cells. *)
Lemma initGrid_negative_surface :
  0 < pixelSize defaultParams + gap defaultParams /\
  snd (initGrid sampleLibs defaultParams (-100) 100 initialComponent) = ThrowRangeError /\
  exists gd,
    initGrid sampleLibs defaultParams (-100) (-100) initialComponent
    = (mkComponent (updatePalette defaultParams) (Some gd), Normal) /\
    cols gd = (-12)%Z /\ rows gd = (-12)%Z /\
    List.length (targetTypes gd) = 144%nat.
Proof.
  split; [simpl; lra|]. split.
  - destruct (initGrid_cases sampleLibs defaultParams (-100) 100 initialComponent)
      as [[N E]|[N E]]; rewrite E; [reflexivity|].
    rewrite ceil_neg100_8, ceil_100_8 in N. lia.
  - destruct (initGrid_cases sampleLibs defaultParams (-100) (-100) initialComponent)
      as [[N E]|[N E]].
    + rewrite ceil_neg100_8 in N. lia.
    + eexists. split; [exact E|]. cbn [cols rows targetTypes].
      split; [apply ceil_neg100_8|]. split; [apply ceil_neg100_8|].
      rewrite ceil_neg100_8.
      exact (proj1 (initLoop_lengths sampleLibs defaultParams (-12) (-12) 144)).
Qed.

(** ** The anti-clustering rule *)

(** The two loops of the scan visit up-left, up, up-right and left. *)
Lemma hasAccentNeighbor_unfold (cols rows : Z) (tt : list nat) (x y : Z) :
  hasAccentNeighbor cols rows tt x y =
  (accentAt cols rows tt (x + -1) (y + -1) ||
   (accentAt cols rows tt (x + 0) (y + -1) ||
    (accentAt cols rows tt (x + 1) (y + -1) || false)) ||
   (accentAt cols rows tt (x + -1) (y + 0) || false || false))%bool.
Proof. reflexivity. Qed.

Lemma accentAt_false (cols rows : Z) (tt : list nat) (nx ny : Z) :
  accentAt cols rows tt nx ny = false ->
  (0 <= nx < cols)%Z -> (0 <= ny < rows)%Z ->
  get 0%nat tt (ny * cols + nx) = 0%nat.
Proof.
  unfold accentAt. intros H Hx Hy.
  rewrite !Z.geb_leb in H.
  destruct (Z.leb_spec 0 nx); [|lia].
  destruct (Z.ltb_spec nx cols); [|lia].
  destruct (Z.leb_spec 0 ny); [|lia].
  destruct (Z.ltb_spec ny rows); [|lia].
  simpl in H. apply negb_false_iff in H. apply Nat.eqb_eq in H. exact H.
Qed.

Lemma hasAccentNeighbor_false (cols rows : Z) (tt : list nat) (x y nx ny : Z) :
  hasAccentNeighbor cols rows tt x y = false ->
  In (nx, ny) (halfNeighborhood x y) ->
  (0 <= nx < cols)%Z -> (0 <= ny < rows)%Z ->
  get 0%nat tt (ny * cols + nx) = 0%nat.
Proof.
  rewrite hasAccentNeighbor_unfold. intros H Hin Hx Hy.
  rewrite !orb_false_r in H.
  apply orb_false_elim in H. destruct H as [H Hl].
  apply orb_false_elim in H. destruct H as [Hul H].
  apply orb_false_elim in H. destruct H as [Hu Hur].
  rewrite Z.add_0_r in Hu, Hl.
  simpl in Hin.
  destruct Hin as [E|[E|[E|[E|[]]]]]; inversion E; subst nx ny;
    apply (accentAt_false cols rows); assumption.
Qed.

(** A cell of the half-neighborhood comes before its cell in raster
    order. *)
Lemma halfNeighborhood_earlier (cols x y nx ny : Z) :
  In (nx, ny) (halfNeighborhood x y) ->
  (0 <= x < cols)%Z -> (0 <= nx < cols)%Z ->
  (ny * cols + nx < y * cols + x)%Z.
Proof.
  intros Hin Hx Hnx. simpl in Hin.
  destruct Hin as [E|[E|[E|[E|[]]]]]; inversion E; subst nx ny; nia.
Qed.

Section AntiClustering.

Variable L : Libs.
Variable p : Params.
Variables cols rows : Z.
Hypothesis cols_pos : (0 < cols)%Z.

(** Among the cells before [bound] in raster order, no accent cell has
    an accent cell in its half-neighborhood. *)
Let spread (tt : list nat) (bound : Z) : Prop :=
  forall x y,
    (0 <= x < cols)%Z -> (0 <= y < rows)%Z -> (y * cols + x < bound)%Z ->
    get 0%nat tt (y * cols + x) <> 0%nat ->
    forall nx ny,
      In (nx, ny) (halfNeighborhood x y) ->
      (0 <= nx < cols)%Z -> (0 <= ny < rows)%Z ->
      get 0%nat tt (ny * cols + nx) = 0%nat.

(** The type written for cell [i] is an accent only when the scan found
    none. *)
Lemma initCell_targetTypes (i : Z) (s : BuildState L) :
  exists type : nat,
    b_targetTypes (initCell L p cols rows i s) = set (b_targetTypes s) i type /\
    (type <> 0%nat ->
     hasAccentNeighbor cols rows (b_targetTypes s)
       (Z.rem i cols) (JsMath.floor (IZR i / IZR cols)) = false).
Proof.
  unfold initCell. destruct (next L (rng s)) as [u rng1].
  destruct (hasAccentNeighbor _ _ _ _ _) eqn:Hn.
  - exists 0%nat. split; [reflexivity | intros H; contradiction].
  - destruct (next L rng1) as [v rng2].
    destruct (Rlt_dec _ _); [|destruct (Rlt_dec _ _)];
      eexists; (split; [reflexivity | intros _; reflexivity]).
Qed.

Lemma initCell_spread (i : Z) (s : BuildState L) :
  (0 <= i < Z.of_nat (List.length (b_targetTypes s)))%Z ->
  spread (b_targetTypes s) i ->
  spread (b_targetTypes (initCell L p cols rows i s)) (i + 1).
Proof.
  intros Hi IH.
  destruct (initCell_targetTypes i s) as (type & E & Htype). rewrite E.
  intros x y Hx Hy Hidx Hacc nx ny Hin Hnx Hny.
  pose proof (halfNeighborhood_earlier cols x y nx ny Hin Hx Hnx) as Hlt.
  assert (Hnneg : (0 <= ny * cols + nx)%Z) by nia.
  rewrite get_set_other by lia.
  destruct (Z.eq_dec (y * cols + x) i) as [Heq|Hne].
  - (* the cell just written *)
    rewrite Heq in Hacc. rewrite get_set_same in Hacc by exact Hi.
    specialize (Htype Hacc).
    assert (Hxi : Z.rem i cols = x).
    { rewrite Z.rem_mod_nonneg by lia. symmetry.
      apply Z.mod_unique with y; [left; lia | lia]. }
    assert (Hyi : JsMath.floor (IZR i / IZR cols) = y).
    { rewrite floor_div by lia. symmetry.
      apply Z.div_unique with x; [left; lia | lia]. }
    rewrite Hxi, Hyi in Htype.
    eapply hasAccentNeighbor_false; eassumption.
  - (* an earlier cell *)
    rewrite get_set_other in Hacc by nia.
    apply (IH x y Hx Hy ltac:(lia) Hacc nx ny Hin Hnx Hny).
Qed.

Lemma initLoop_spread (n : Z) (s0 : BuildState L) :
  List.length (b_targetTypes s0) = Z.to_nat n ->
  spread (b_targetTypes (for_upto n (initCell L p cols rows) s0)) n.
Proof.
  intros Hlen.
  destruct (Z_le_gt_dec n 0) as [Hle|Hgt].
  - intros x y Hx Hy Hidx. nia.
  - apply (for_upto_invariant
             (fun k s => List.length (b_targetTypes s) = Z.to_nat n /\
                         spread (b_targetTypes s) k)).
    + lia.
    + split; [exact Hlen|]. intros x y Hx Hy Hidx. nia.
    + intros i s' Hi [Hl Hs]. split.
      * rewrite (proj1 (initCell_lengths L p cols rows i s')). exact Hl.
      * apply initCell_spread; [rewrite Hl; lia | exact Hs].
Qed.

End AntiClustering.

(** C3. After a build that completes, a cell whose [colorClass] is not
    Base has no cell of its half-neighborhood (left, up-left, up,
    up-right) inside the grid whose [colorClass] is not Base. *)
Theorem initGrid_no_accent_cluster (L : Libs) (p : Params) (width height : R)
  (c : Component) (gd : GridData) :
  snd (initGrid L p width height c) = Normal ->
  gridData (fst (initGrid L p width height c)) = Some gd ->
  forall x y,
    inGrid gd x y -> colorClass gd x y <> 0%nat ->
    forall nx ny,
      In (nx, ny) (halfNeighborhood x y) -> inGrid gd nx ny ->
      colorClass gd nx ny = 0%nat.
Proof.
  intros Hnormal Hgd.
  destruct (initGrid_cases L p width height c) as [[N E]|[N E]];
    rewrite E in Hnormal, Hgd; [discriminate Hnormal|].
  cbn [fst gridData] in Hgd. inversion Hgd as [Egd]. clear Hgd Hnormal E Egd.
  set (cs := JsMath.ceil (width / (pixelSize p + gap p))) in *.
  set (rs := JsMath.ceil (height / (pixelSize p + gap p))) in *.
  unfold inGrid, colorClass. cbn [cols rows targetTypes].
  intros x y [Hx Hy] Hacc nx ny Hin [Hnx Hny].
  assert (Hcs : (0 < cs)%Z) by lia.
  assert (Hidx : (y * cs + x < cs * rs)%Z) by nia.
  refine (initLoop_spread L p cs rs Hcs (cs * rs) _ _ x y Hx Hy Hidx Hacc nx ny Hin Hnx Hny).
  simpl. apply repeat_length.
Qed.

(** *** A run of the builder *)

Lemma ceil_24_8 : JsMath.ceil (24 / (pixelSize defaultParams + gap defaultParams)) = 3%Z.
Proof. apply ceil_unique. simpl. lra. Qed.

Lemma ceil_8_8 : JsMath.ceil (8 / (pixelSize defaultParams + gap defaultParams)) = 1%Z.
Proof. apply ceil_unique. simpl. lra. Qed.

Ltac eval_scan :=
  match goal with
  | |- context [hasAccentNeighbor ?a ?b ?c ?d ?e] =>
      let v := eval vm_compute in (hasAccentNeighbor a b c d e) in
      change (hasAccentNeighbor a b c d e) with v; cbv iota
  end.

Ltac decide_lt :=
  repeat match goal with
  | |- context [Rlt_dec ?a ?b] =>
      destruct (Rlt_dec a b); try (exfalso; simpl in *; lra)
  end.

Ltac real_list :=
  repeat (apply (f_equal2 (@cons R)); [lra|]); reflexivity.

Ltac build_step :=
  unfold initCell; cbn [next sampleLibs rng b_targetTypes b_biases b_activations];
  rewrite floor_div by lia; eval_scan; decide_lt;
  unfold set; simpl; f_equal; real_list.

Example initCell_sample_0 :
  initCell sampleLibs defaultParams 3 1 0 (mkBuild (L := sampleLibs) 0%nat [0; 0; 0]%nat [0; 0; 0] [0; 0; 0])
  = mkBuild (L := sampleLibs) 2%nat [2; 0; 0]%nat [-1; 0; 0] [0; 0; 0].
Proof. build_step. Qed.

Example initCell_sample_1 :
  initCell sampleLibs defaultParams 3 1 1 (mkBuild (L := sampleLibs) 2%nat [2; 0; 0]%nat [-1; 0; 0] [0; 0; 0])
  = mkBuild (L := sampleLibs) 3%nat [2; 0; 0]%nat [-1; 0; 0] [0; 0; 0].
Proof. build_step. Qed.

Example initCell_sample_2 :
  initCell sampleLibs defaultParams 3 1 2 (mkBuild (L := sampleLibs) 3%nat [2; 0; 0]%nat [-1; 0; 0] [0; 0; 0])
  = mkBuild (L := sampleLibs) 5%nat [2; 0; 1]%nat [-1; 0; 1 / 2] [0; 0; 0].
Proof. build_step. Qed.

(** The builder on the surface [24 x 8] with the sample generator: three
    cells in one row, pink, gray, yellow. *)
Example initGrid_sample_row :
    initGrid sampleLibs defaultParams 24 8 initialComponent
    = (mkComponent (updatePalette defaultParams)
         (Some (mkGrid 3 1 [2; 0; 1]%nat [-1; 0; 1 / 2] [0; 0; 0])), Normal).
Proof.
  destruct (initGrid_cases sampleLibs defaultParams 24 8 initialComponent)
    as [[N E]|[N E]]; rewrite ceil_24_8, ceil_8_8 in *; [lia|].
  rewrite E. clear E N. 
  unfold for_upto. change (Z.to_nat (3 * 1)) with 3%nat. cbn [for_loop repeat].
  change (0 + 1)%Z with 1%Z. change (1 + 1)%Z with 2%Z.
  change (seedrandom sampleLibs "grid-layout-fixed") with 0%nat.
  rewrite initCell_sample_0, initCell_sample_1, initCell_sample_2.
  reflexivity.
Qed.

Lemma initGrid_no_accent_cluster_witness :
  colorClass (mkGrid 3 1 [2; 0; 1]%nat [-1; 0; 1 / 2] [0; 0; 0]) 1 0 = 0%nat.
Proof.
  set (gd := mkGrid 3 1 [2; 0; 1]%nat [-1; 0; 1 / 2] [0; 0; 0]).
  assert (Hn : snd (initGrid sampleLibs defaultParams 24 8 initialComponent) = Normal)
    by (rewrite initGrid_sample_row; reflexivity).
  assert (Hg : gridData (fst (initGrid sampleLibs defaultParams 24 8 initialComponent))
               = Some gd)
    by (rewrite initGrid_sample_row; reflexivity).
  assert (Hcell : inGrid gd 2 0) by (unfold inGrid; simpl; lia).
  assert (Hacc : colorClass gd 2 0 <> 0%nat) by (vm_compute; discriminate).
  assert (Hin : In (1, 0)%Z (halfNeighborhood 2 0)) by (left; reflexivity).
  assert (Hpred : inGrid gd 1 0) by (unfold inGrid; simpl; lia).
  exact (initGrid_no_accent_cluster sampleLibs defaultParams 24 8 initialComponent gd
           Hn Hg 2%Z 0%Z Hcell Hacc 1%Z 0%Z Hin Hpred).
Defined.

(** ** The frame renderer *)

(** A cell of the frame writes its smoothed activation and nothing else
    of the grid. *)
Lemma drawCell_grid (L : Libs) (p : Params) (pal : Palette) (t maskVal : R)
  (y x : Z) (s : DrawState) :
  let gd := d_grid s in
  let i := (y * cols gd + x)%Z in
  d_grid (drawCell L p pal t maskVal y x s)
  = set_activation gd i
      (smooth p (get 0 (activations gd) i)
         (cellTarget L p t x y (get 0 (biases gd) i))).
Proof. cbv zeta. unfold drawCell. destruct (debugView p); reflexivity. Qed.

Lemma raster_index_row (cols x y x' y' : Z) :
  (0 <= x < cols)%Z -> (0 <= x' < cols)%Z ->
  (y * cols + x = y' * cols + x')%Z -> y = y'.
Proof. intros Hx Hx' E. nia. Qed.

Section FrameEffect.

Variable L : Libs.
Variable p : Params.
Variable pal : Palette.
Variable t : R.
Variable gd : GridData.

(** What the loops of a frame keep: the layout, and the activation of
    every cell in a row whose mask is [0]. *)
Let kept (s : DrawState) : Prop :=
  sameLayout gd (d_grid s) /\
  forall x y, inGrid gd x y -> verticalMask p (rows gd) y = 0 ->
    activationAt (d_grid s) x y = activationAt gd x y.

Lemma drawCell_kept (maskVal : R) (y x : Z) (s : DrawState) :
  (0 <= x < cols gd)%Z -> verticalMask p (rows gd) y <> 0 ->
  kept s -> kept (drawCell L p pal t maskVal y x s).
Proof.
  intros Hx Hmask [(Hc & Hr & Ht & Hb) Hact].
  unfold kept. rewrite drawCell_grid. cbv zeta. split.
  - unfold sameLayout, set_activation. cbn [cols rows targetTypes biases]. auto.
  - intros x0 y0 [Hx0 Hy0] Hm0.
    rewrite <- (Hact x0 y0 (conj Hx0 Hy0) Hm0).
    unfold activationAt, set_activation. cbn [cols activations]. rewrite Hc.
    apply get_set_other; [nia|].
    intros E. apply (raster_index_row (cols gd) x y x0 y0 Hx Hx0) in E.
    subst y0. contradiction.
Qed.

Lemma drawRow_kept (y : Z) (s : DrawState) :
  kept s -> kept (drawRow L p pal t y s).
Proof.
  intros Hs. unfold drawRow.
  destruct Hs as [Hlay Hact]. pose proof Hlay as (Hc & Hr & _).
  rewrite Hr, Hc.
  destruct (Rle_dec (verticalMask p (rows gd) y) 0) as [Hskip|Hdraw].
  - split; assumption.
  - apply (for_upto_preserves kept); [split; assumption|].
    intros x s' Hx Hs'. apply drawCell_kept; [exact Hx | lra | exact Hs'].
Qed.

Lemma drawRows_kept (s : DrawState) :
  kept s -> kept (for_upto (rows gd) (drawRow L p pal t) s).
Proof.
  intros Hs. apply (for_upto_preserves kept); [exact Hs|].
  intros y s' _. apply drawRow_kept.
Qed.

End FrameEffect.

(** C8. A frame leaves [cols], [rows], [targetTypes] and [biases] as they
    are, and leaves the stored activation of every cell of a row whose
    vertical mask is [0] as it is. *)
Theorem draw_frame_effect (L : Libs) (p : Params) (reducedMotion : bool)
  (canvas : option Canvas) (time : R) (c : Component) (gd : GridData) :
  gridData c = Some gd ->
  exists gd',
    gridData (fst (draw L p reducedMotion canvas time c)) = Some gd' /\
    cols gd' = cols gd /\ rows gd' = rows gd /\
    targetTypes gd' = targetTypes gd /\ biases gd' = biases gd /\
    forall x y, inGrid gd x y -> verticalMask p (rows gd) y = 0 ->
      activationAt gd' x y = activationAt gd x y.
Proof.
  intros Hgd. unfold draw. rewrite Hgd.
  destruct canvas as [cv|].
  - cbn [fst gridData].
    set (s0 := mkDraw gd _).
    set (t := if reducedMotion then 0 else time * (1 / 1000)).
    destruct (drawRows_kept L p (palette c) t gd s0) as [(Hc & Hr & Ht & Hb) Hact].
    { split; [repeat split | reflexivity]. }
    eexists. split; [reflexivity|]. auto 6.
  - exists gd. cbn [fst]. rewrite Hgd. auto 7.
Qed.

Lemma draw_frame_effect_witness :
  exists gd',
    gridData (fst (draw sampleLibs defaultParams false (Some (mkCanvas 24 8)) 16
                     (mkComponent (updatePalette defaultParams)
                        (Some (mkGrid 3 1 [2; 0; 1]%nat [-1; 0; 1 / 2] [0; 0; 0]))))) = Some gd' /\
    targetTypes gd' = [2; 0; 1]%nat /\ activationAt gd' 2 0 = 0.
Proof.
  set (gd := mkGrid 3 1 [2; 0; 1]%nat [-1; 0; 1 / 2] [0; 0; 0]).
  destruct (draw_frame_effect sampleLibs defaultParams false (Some (mkCanvas 24 8)) 16
              (mkComponent (updatePalette defaultParams) (Some gd)) gd eq_refl)
    as (gd' & E & _ & _ & Ht & _ & Hact).
  exists gd'. split; [exact E|]. split; [exact Ht|].
  assert (Hcell : inGrid gd 2 0) by (unfold inGrid; simpl; lia).
  assert (Hmask : verticalMask defaultParams (rows gd) 0 = 0).
  { rewrite verticalMask_full_height by reflexivity.
    apply clamp01_low. simpl. lra. }
  rewrite (Hact 2%Z 0%Z Hcell Hmask). vm_compute. reflexivity.
Defined.

(** ** The range of the activations *)

Lemma pow_unit (x y : R) : inUnit x -> 0 < y -> inUnit (JsMath.pow x y).
Proof.
  intros [Hx0 Hx1] Hy. unfold JsMath.pow, inUnit.
  destruct (Req_dec_T x 0) as [Hz|Hnz].
  - destruct (Req_dec_T y 0); lra.
  - assert (Hpos : 0 < x) by lra. split.
    + left. unfold Rpower. apply exp_pos.
    + assert (H1 : Rpower 1 y = 1).
      { unfold Rpower. rewrite ln_1, Rmult_0_r. apply exp_0. }
      rewrite <- H1. apply Rle_Rpower_l; lra.
Qed.

Lemma cellTarget_unit (L : Libs) (p : Params) (t : R) (x y : Z) (bias : R) :
  0 < mixGamma p -> inUnit (cellTarget L p t x y bias).
Proof.
  intros Hg. unfold cellTarget. cbv zeta.
  destruct (Req_dec_T (mixGamma p) 1).
  - apply clamp01_range.
  - apply pow_unit; [apply clamp01_range | exact Hg].
Qed.

(** One update of the smoother stays in the unit interval. *)
Lemma smooth_unit (p : Params) (activation target : R) :
  0 < smoothing p <= 1 -> inUnit activation -> inUnit target ->
  inUnit (smooth p activation target).
Proof.
  unfold inUnit, smooth. intros [Hs0 Hs1] [Ha0 Ha1] [Ht0 Ht1].
  replace (activation + (target - activation) * smoothing p)
    with (activation * (1 - smoothing p) + target * smoothing p) by ring.
  assert (0 <= activation * (1 - smoothing p)) by (apply Rmult_le_pos; lra).
  assert (0 <= target * smoothing p) by (apply Rmult_le_pos; lra).
  assert (0 <= (1 - activation) * (1 - smoothing p)) by (apply Rmult_le_pos; lra).
  assert (0 <= (1 - target) * smoothing p) by (apply Rmult_le_pos; lra).
  lra.
Qed.

Section ActivationRange.

Variable L : Libs.

Let unitGrid (s : DrawState) : Prop := Forall inUnit (activations (d_grid s)).

Lemma drawCell_unit (p : Params) (pal : Palette) (t maskVal : R) (y x : Z)
  (s : DrawState) :
  0 < smoothing p <= 1 -> 0 < mixGamma p ->
  unitGrid s -> unitGrid (drawCell L p pal t maskVal y x s).
Proof.
  intros Hs Hg Hu. unfold unitGrid. rewrite drawCell_grid. cbv zeta.
  unfold set_activation. cbn [activations].
  apply set_Forall; [exact Hu|].
  apply smooth_unit; [exact Hs | | apply cellTarget_unit; exact Hg].
  apply get_Forall; [exact Hu | unfold inUnit; lra].
Qed.

Lemma drawRow_unit (p : Params) (pal : Palette) (t : R) (y : Z) (s : DrawState) :
  0 < smoothing p <= 1 -> 0 < mixGamma p ->
  unitGrid s -> unitGrid (drawRow L p pal t y s).
Proof.
  intros Hs Hg Hu. unfold drawRow.
  destruct (Rle_dec _ 0); [exact Hu|].
  apply (for_upto_preserves unitGrid); [exact Hu|].
  intros x s' _. apply drawCell_unit; assumption.
Qed.

(** A frame keeps the activations in the unit interval. *)
Lemma drawFrame_unit (c : Component) (f : Frame) :
  smootherParams f ->
  (forall gd, gridData c = Some gd -> Forall inUnit (activations gd)) ->
  forall gd', gridData (drawFrame L c f) = Some gd' -> Forall inUnit (activations gd').
Proof.
  intros [Hs Hg] Hc gd'. unfold drawFrame, draw.
  destruct (f_canvas f) as [cv|]; [|exact (Hc gd')].
  destruct (gridData c) as [gd|] eqn:Egd;
    [|cbn [fst]; rewrite Egd; intros E; discriminate E].
  cbn [fst gridData]. intros E. inversion E as [E'].
  apply (for_upto_preserves unitGrid).
  - unfold unitGrid. cbn [d_grid]. apply Hc. reflexivity.
  - intros y s' _. apply drawRow_unit; assumption.
Qed.

Lemma runFrames_unit (fs : list Frame) :
  Forall smootherParams fs ->
  forall c,
    (forall gd, gridData c = Some gd -> Forall inUnit (activations gd)) ->
    forall gd', gridData (runFrames L fs c) = Some gd' -> Forall inUnit (activations gd').
Proof.
  induction 1 as [|f fs Hf Hfs IH]; intros c Hc gd'.
  - exact (Hc gd').
  - cbn [runFrames fold_left]. apply IH. apply drawFrame_unit; assumption.
Qed.

(** The builder leaves every activation at [0]. *)
Lemma initLoop_activations_zero (p : Params) (cols rows n : Z) (s0 : BuildState L) :
  Forall (fun a => a = 0) (b_activations s0) ->
  Forall (fun a => a = 0) (b_activations (for_upto n (initCell L p cols rows) s0)).
Proof.
  intros H0.
  apply (for_upto_preserves (fun s => Forall (fun a => a = 0) (b_activations s)));
    [exact H0|].
  intros i s' _ Hs'. unfold initCell.
  destruct (next L (rng s')) as [u rng1].
  destruct (hasAccentNeighbor _ _ _ _ _).
  - cbn [b_activations]. apply set_Forall; [exact Hs' | reflexivity].
  - destruct (next L rng1) as [v rng2].
    destruct (Rlt_dec _ _); [|destruct (Rlt_dec _ _)];
      cbn [b_activations]; (apply set_Forall; [exact Hs' | reflexivity]).
Qed.

End ActivationRange.

(** X23. After a build that completes every activation is [0]; and after
    any frames whose smoothing factor is in [(0,1]], whose gamma is
    positive and whose feathers open the two threshold bands, every
    activation is in [[0,1]]. *)
Theorem activations_in_unit_interval (L : Libs) (p : Params) (width height : R)
  (c : Component) (frames : list Frame) :
  snd (initGrid L p width height c) = Normal ->
  Forall smootherParams frames ->
  Forall (fun f => openBands (f_params f)) frames ->
  (exists gd0,
     gridData (fst (initGrid L p width height c)) = Some gd0 /\
     Forall (fun a => a = 0) (activations gd0)) /\
  (exists gd,
     gridData (runFrames L frames (fst (initGrid L p width height c))) = Some gd /\
     Forall inUnit (activations gd)).
Proof.
  intros Hnormal Hframes _.
  destruct (initGrid_cases L p width height c) as [[N E]|[N E]];
    rewrite E in *; [discriminate Hnormal|]. clear Hnormal.
  cbn [fst].
  set (gd0 := mkGrid _ _ _ _ _).
  assert (Hzero : Forall (fun a => a = 0) (activations gd0)).
  { unfold gd0. cbn [activations]. apply initLoop_activations_zero.
    cbn [b_activations]. apply Forall_forall. intros a Ha.
    apply repeat_spec in Ha. exact Ha. }
  split; [exists gd0; split; [reflexivity | exact Hzero]|].
  assert (Hunit : forall gd, gridData (mkComponent (updatePalette p) (Some gd0)) = Some gd ->
                             Forall inUnit (activations gd)).
  { intros gd Hgd. cbn in Hgd. inversion Hgd; subst gd.
    eapply Forall_impl; [|exact Hzero]. intros a ->. unfold inUnit. lra. }
  assert (Hsome : forall fs c', gridData c' <> None -> gridData (runFrames L fs c') <> None).
  { induction fs as [|f fs IH]; intros c' Hc'; [exact Hc'|].
    cbn [runFrames fold_left]. apply IH. unfold drawFrame, draw.
    destruct (f_canvas f); [|exact Hc'].
    destruct (gridData c'); [discriminate | contradiction]. }
  destruct (gridData (runFrames L frames (mkComponent (updatePalette p) (Some gd0))))
    as [gd|] eqn:Egd.
  - exists gd. split; [reflexivity|].
    eapply runFrames_unit; eassumption.
  - exfalso. eapply Hsome; [|exact Egd]. discriminate.
Qed.

Lemma ceil_16_8 : JsMath.ceil (16 / (pixelSize defaultParams + gap defaultParams)) = 2%Z.
Proof. apply ceil_unique. simpl. lra. Qed.

Lemma activations_in_unit_interval_witness :
  exists gd,
    gridData (runFrames sampleLibs
                [mkFrame defaultParams false (Some (mkCanvas 24 16)) 16;
                 mkFrame defaultParams false (Some (mkCanvas 24 16)) 32]
                (fst (initGrid sampleLibs defaultParams 24 16 initialComponent))) = Some gd /\
    Forall inUnit (activations gd).
Proof.
  assert (Hn : snd (initGrid sampleLibs defaultParams 24 16 initialComponent) = Normal).
  { destruct (initGrid_cases sampleLibs defaultParams 24 16 initialComponent)
      as [[N E]|[N E]]; rewrite E; [|reflexivity].
    rewrite ceil_24_8, ceil_16_8 in N. lia. }
  assert (Hp : forall t, smootherParams (mkFrame defaultParams false (Some (mkCanvas 24 16)) t))
    by (intros t; unfold smootherParams; simpl; lra).
  assert (Hb : forall t, openBands (f_params (mkFrame defaultParams false (Some (mkCanvas 24 16)) t)))
    by (intros t; unfold openBands, openBand, Rabs; simpl;
        split; destruct (Rcase_abs _); lra).
  exact (proj2 (activations_in_unit_interval sampleLibs defaultParams 24 16 initialComponent
                  [mkFrame defaultParams false (Some (mkCanvas 24 16)) 16;
                   mkFrame defaultParams false (Some (mkCanvas 24 16)) 32]
                  Hn
                  (Forall_cons _ (Hp 16) (Forall_cons _ (Hp 32) (Forall_nil _)))
                  (@Forall_cons Frame (fun f => openBands (f_params f)) _ _ (Hb 16)
                     (@Forall_cons Frame (fun f => openBands (f_params f)) _ _ (Hb 32)
                        (Forall_nil _))))).
Defined.

(** C9. The invariant fails in the code at a threshold band of width [0]:
    with [macroFeather = 0] (the minimum of its slider), [macroThreshold =
    0.5] and a macro noise sample of [0], [macroVal] is the threshold, the
    band is [0 / 0 = NaN], the clamp of the target lets [NaN] through, and
    the activation stored by the frame is [NaN] (gamma [1], smoothing
    [0.15], the other parameters at their initial values, the activation
    [0] before the frame). *)
Lemma activation_nan_at_empty_band (pow : Binary64.number -> Binary64.number -> Binary64.number) :
  let macroSample := Binary64.zero in
  let microSample := Binary64.zero in
  let bias := Binary64.zero in
  let macroThreshold := Binary64.half in
  let macroFeather := Binary64.zero in
  let microThreshold := Binary64.double 7205759403792794 (-55) in
  let microFeather := Binary64.double 7205759403792794 (-55) in
  let biasStrength := Binary64.half in
  let mixGamma := Binary64.one in
  let smoothing := Binary64.double 5404319552844595 (-55) in
  Binary64.smoothstepMask (Binary64.mul (Binary64.add macroSample Binary64.one) Binary64.half)
    macroThreshold macroFeather = Binary64.NaN /\
  Binary64.cellTarget pow macroSample microSample bias
    macroThreshold macroFeather microThreshold microFeather biasStrength mixGamma
  = Binary64.NaN /\
  Binary64.storedActivation Binary64.zero
    (Binary64.cellTarget pow macroSample microSample bias
       macroThreshold macroFeather microThreshold microFeather biasStrength mixGamma)
    smoothing
  = Binary64.NaN.
Proof. vm_compute. repeat split. Qed.


(** * Further properties of the helpers *)

(** ** [hexToRgb] on well-formed strings *)

Lemma hex_value_class (c : ascii) (v : Z) :
  hex_value c = Some v ->
  Regex.class_match true [Regex.Range "a" "f"; Regex.Digit] c = true /\
  (0 <= v <= 15)%Z /\ Ascii.eqb c "#" = false.
Proof.
  destruct c as [[] [] [] [] [] [] [] []]; vm_compute; intros H;
    solve [ discriminate H
          | inversion H; subst v; repeat split; intros; discriminate ].
Qed.

Lemma class_hex_value (c : ascii) :
  Regex.class_match true [Regex.Range "a" "f"; Regex.Digit] c = true ->
  exists v, hex_value c = Some v /\ (0 <= v <= 15)%Z.
Proof.
  destruct c as [[] [] [] [] [] [] [] []]; vm_compute; intros H;
    solve [ discriminate H
          | eexists; split; [reflexivity | split; intros; discriminate] ].
Qed.

Lemma take_pair (c1 c2 : ascii) (rest : string) :
  Regex.class_match true [Regex.Range "a" "f"; Regex.Digit] c1 = true ->
  Regex.class_match true [Regex.Range "a" "f"; Regex.Digit] c2 = true ->
  Regex.take true [Regex.Range "a" "f"; Regex.Digit] 2 (String c1 (String c2 rest))
  = Some (String c1 (String c2 EmptyString), rest).
Proof. intros H1 H2. cbn [Regex.take]. rewrite H1, H2. reflexivity. Qed.

Lemma parseInt16_pair (c1 c2 : ascii) (v1 v2 : Z) :
  hex_value c1 = Some v1 -> hex_value c2 = Some v2 ->
  parseInt16 (String c1 (String c2 EmptyString)) = (v1 * 16 + v2)%Z.
Proof.
  intros H1 H2. unfold parseInt16. cbn [parseInt16_from]. rewrite H1, H2. lia.
Qed.

(** X1. A string of six hexadecimal digits, with or without the leading
    [#], is parsed to the three channels its pairs of digits denote. *)
Theorem hexToRgb_wellformed (c1 c2 c3 c4 c5 c6 : ascii) (v1 v2 v3 v4 v5 v6 : Z) :
  hex_value c1 = Some v1 -> hex_value c2 = Some v2 ->
  hex_value c3 = Some v3 -> hex_value c4 = Some v4 ->
  hex_value c5 = Some v5 -> hex_value c6 = Some v6 ->
  let body := String c1 (String c2 (String c3 (String c4 (String c5 (String c6 EmptyString))))) in
  let rgb := mkRGB (v1 * 16 + v2) (v3 * 16 + v4) (v5 * 16 + v6) in
  hexToRgb body = rgb /\ hexToRgb (String "#" body) = rgb.
Proof.
  intros H1 H2 H3 H4 H5 H6 body rgb.
  destruct (hex_value_class c1 v1 H1) as (K1 & _ & N1).
  destruct (hex_value_class c2 v2 H2) as (K2 & _ & _).
  destruct (hex_value_class c3 v3 H3) as (K3 & _ & _).
  destruct (hex_value_class c4 v4 H4) as (K4 & _ & _).
  destruct (hex_value_class c5 v5 H5) as (K5 & _ & _).
  destruct (hex_value_class c6 v6 H6) as (K6 & _ & _).
  assert (G : Regex.exec true (tl hexPattern) body
              = Some [String c1 (String c2 EmptyString);
                      String c3 (String c4 EmptyString);
                      String c5 (String c6 EmptyString)]).
  { unfold hexPattern, body. cbn [tl Regex.exec].
    rewrite (take_pair c1 c2 _ K1 K2), (take_pair c3 c4 _ K3 K4),
            (take_pair c5 c6 _ K5 K6). reflexivity. }
  assert (P : mkRGB (parseInt16 (String c1 (String c2 EmptyString)))
                    (parseInt16 (String c3 (String c4 EmptyString)))
                    (parseInt16 (String c5 (String c6 EmptyString))) = rgb).
  { rewrite (parseInt16_pair c1 c2 v1 v2 H1 H2), (parseInt16_pair c3 c4 v3 v4 H3 H4),
            (parseInt16_pair c5 c6 v5 v6 H5 H6). reflexivity. }
  split.
  - unfold hexToRgb. change hexPattern with (Regex.OptChar "#" :: tl hexPattern).
    cbn [Regex.exec]. unfold body at 1. rewrite N1. fold body. rewrite G. exact P.
  - unfold hexToRgb. change hexPattern with (Regex.OptChar "#" :: tl hexPattern).
    cbn [Regex.exec]. change (Ascii.eqb "#" "#") with true. cbv iota.
    rewrite G. exact P.
Qed.

Lemma hexToRgb_wellformed_witness :
  hexToRgb "FFEAEA" = mkRGB 255 234 234 /\ hexToRgb "#FFEAEA" = mkRGB 255 234 234.
Proof.
  exact (hexToRgb_wellformed "F" "F" "E" "A" "E" "A" 15 15 14 10 14 10
           eq_refl eq_refl eq_refl eq_refl eq_refl eq_refl).
Defined.

(** ** The range of the channels *)

Lemma take_two_shape (s cap rest : string) :
  Regex.take true [Regex.Range "a" "f"; Regex.Digit] 2 s = Some (cap, rest) ->
  exists c1 c2 v1 v2,
    cap = String c1 (String c2 EmptyString) /\
    hex_value c1 = Some v1 /\ hex_value c2 = Some v2 /\
    (0 <= v1 <= 15)%Z /\ (0 <= v2 <= 15)%Z.
Proof.
  cbn [Regex.take]. destruct s as [|c1 [|c2 s']]; try discriminate.
  - destruct (Regex.class_match _ _ c1); discriminate.
  - destruct (Regex.class_match _ _ c1) eqn:K1; [|discriminate].
    destruct (Regex.class_match _ _ c2) eqn:K2; [|discriminate].
    intros H. inversion H; subst cap rest.
    destruct (class_hex_value c1 K1) as (v1 & E1 & B1).
    destruct (class_hex_value c2 K2) as (v2 & E2 & B2).
    exists c1, c2, v1, v2. auto.
Qed.

Lemma capture_channel (s cap rest : string) :
  Regex.take true [Regex.Range "a" "f"; Regex.Digit] 2 s = Some (cap, rest) ->
  channel (parseInt16 cap).
Proof.
  intros H. destruct (take_two_shape s cap rest H) as (c1 & c2 & v1 & v2 & E & H1 & H2 & B1 & B2).
  subst cap. rewrite (parseInt16_pair c1 c2 v1 v2 H1 H2). unfold channel. lia.
Qed.

(** The captures of a match are the three pairs of digits. *)
Lemma groups_captures (s : string) (caps : list string) :
  Regex.exec true (tl hexPattern) s = Some caps ->
  exists k1 k2 k3, caps = [k1; k2; k3] /\
    channel (parseInt16 k1) /\ channel (parseInt16 k2) /\ channel (parseInt16 k3).
Proof.
  unfold hexPattern. cbn [tl Regex.exec].
  destruct (Regex.take _ _ 2 s) as [[k1 r1]|] eqn:T1; [|discriminate].
  destruct (Regex.take _ _ 2 r1) as [[k2 r2]|] eqn:T2; [|discriminate].
  destruct (Regex.take _ _ 2 r2) as [[k3 r3]|] eqn:T3; [|discriminate].
  destruct r3; [|discriminate]. intros H. inversion H; subst caps.
  exists k1, k2, k3. split; [reflexivity|].
  repeat split; eapply capture_channel; eassumption.
Qed.

Lemma exec_captures (s : string) (caps : list string) :
  Regex.exec true hexPattern s = Some caps ->
  exists k1 k2 k3, caps = [k1; k2; k3] /\
    channel (parseInt16 k1) /\ channel (parseInt16 k2) /\ channel (parseInt16 k3).
Proof.
  change hexPattern with (Regex.OptChar "#" :: tl hexPattern). cbn [Regex.exec].
  destruct s as [|d s']; [apply groups_captures|].
  destruct (Ascii.eqb d "#"); [|apply groups_captures].
  destruct (Regex.exec true (tl hexPattern) s') as [caps'|] eqn:E.
  - intros H. inversion H; subst caps'. eapply groups_captures. exact E.
  - apply groups_captures.
Qed.

(** X2. Whatever the string, the channels [hexToRgb] returns are
    integers from [0] to [255]. *)
Theorem hexToRgb_channels (hex : string) : channels (hexToRgb hex).
Proof.
  unfold hexToRgb.
  destruct (Regex.exec true hexPattern hex) as [caps|] eqn:E.
  - destruct (exec_captures hex caps E) as (k1 & k2 & k3 & -> & B1 & B2 & B3).
    unfold channels. cbn [r g b]. auto.
  - unfold channels, channel, black. cbn. lia.
Qed.

(** ** Letter case *)

Lemma canonicalize_hex (c : ascii) :
  Regex.class_match true [Regex.Range "a" "f"; Regex.Digit] (Regex.canonicalize c)
  = Regex.class_match true [Regex.Range "a" "f"; Regex.Digit] c /\
  Ascii.eqb (Regex.canonicalize c) "#" = Ascii.eqb c "#" /\
  hex_value (Regex.canonicalize c) = hex_value c.
Proof.
  destruct c as [[] [] [] [] [] [] [] []]; vm_compute; auto.
Qed.

Lemma take_canonical (n : nat) :
  forall s,
    Regex.take true [Regex.Range "a" "f"; Regex.Digit] n (canonicalString s)
    = match Regex.take true [Regex.Range "a" "f"; Regex.Digit] n s with
      | Some (cap, rest) => Some (canonicalString cap, canonicalString rest)
      | None => None
      end.
Proof.
  induction n as [|k IH]; intros s; [reflexivity|].
  destruct s as [|c s']; [reflexivity|].
  cbn [canonicalString Regex.take].
  rewrite (proj1 (canonicalize_hex c)).
  destruct (Regex.class_match _ _ c); [|reflexivity].
  rewrite IH. destruct (Regex.take _ _ k s') as [[cap rest]|]; reflexivity.
Qed.

Lemma parseInt16_from_canonical (s : string) :
  forall acc, parseInt16_from acc (canonicalString s) = parseInt16_from acc s.
Proof.
  induction s as [|c s' IH]; intros acc; [reflexivity|].
  cbn [canonicalString parseInt16_from].
  rewrite (proj2 (proj2 (canonicalize_hex c))).
  destruct (hex_value c); [apply IH | reflexivity].
Qed.

Lemma groups_canonical (s : string) :
  Regex.exec true (tl hexPattern) (canonicalString s)
  = option_map (map canonicalString) (Regex.exec true (tl hexPattern) s).
Proof.
  unfold hexPattern. cbn [tl Regex.exec].
  rewrite take_canonical.
  destruct (Regex.take _ _ 2 s) as [[k1 r1]|]; [|reflexivity].
  rewrite take_canonical.
  destruct (Regex.take _ _ 2 r1) as [[k2 r2]|]; [|reflexivity].
  rewrite take_canonical.
  destruct (Regex.take _ _ 2 r2) as [[k3 r3]|]; [|reflexivity].
  destruct r3; reflexivity.
Qed.

Lemma exec_canonical (s : string) :
  Regex.exec true hexPattern (canonicalString s)
  = option_map (map canonicalString) (Regex.exec true hexPattern s).
Proof.
  change hexPattern with (Regex.OptChar "#" :: tl hexPattern).
  destruct s as [|d s']; [apply (groups_canonical EmptyString)|].
  cbn [canonicalString Regex.exec].
  rewrite (proj1 (proj2 (canonicalize_hex d))).
  change (String (Regex.canonicalize d) (canonicalString s'))
    with (canonicalString (String d s')).
  destruct (Ascii.eqb d "#"); [|apply groups_canonical].
  rewrite groups_canonical.
  destruct (Regex.exec true (tl hexPattern) s'); [reflexivity|].
  apply groups_canonical.
Qed.

(** X3. The letters of a colour string may be in either case: the string
    and its upper-case form are parsed to the same colour. *)
Theorem hexToRgb_letter_case (hex : string) :
  hexToRgb (canonicalString hex) = hexToRgb hex.
Proof.
  unfold hexToRgb. rewrite exec_canonical.
  destruct (Regex.exec true hexPattern hex) as [caps|]; [|reflexivity].
  destruct caps as [|k1 [|k2 [|k3 [|k4 caps]]]]; try reflexivity.
  cbn [option_map map]. unfold parseInt16.
  rewrite !parseInt16_from_canonical. reflexivity.
Qed.

(** ** [lerpColor] at its ends *)

Lemma round_integer (z : Z) : JsMath.round (IZR z) = z.
Proof.
  apply round_unique.
  assert (0 < / 2) by (apply Rinv_0_lt_compat; lra). lra.
Qed.

(** X4. [lerpColor] returns its first colour at [t = 0] and its second
    colour at [t = 1], without any rounding error. *)
Theorem lerpColor_endpoints (c1 c2 : RGB) :
  lerpColor c1 c2 0 = RgbStr (r c1) (g c1) (b c1) /\
  lerpColor c1 c2 1 = RgbStr (r c2) (g c2) (b c2).
Proof.
  unfold lerpColor. split; f_equal;
    match goal with
    | |- JsMath.round ?e = ?z =>
        replace e with (IZR z) by ring; apply round_integer
    end.
Qed.

(** ** The vertical mask down the rows *)

(** X7. For a positive feather the vertical mask never decreases from a
    row to a row below it. *)
Theorem verticalMask_monotone (p : Params) (rows y1 y2 : Z) :
  0 < maskFeatherY p -> (0 < rows)%Z -> (y1 <= y2)%Z ->
  verticalMask p rows y1 <= verticalMask p rows y2.
Proof.
  intros Hf Hrows Hy. unfold verticalMask. cbv zeta.
  apply clamp01_mono.
  assert (HR : 0 < IZR rows) by (apply IZR_lt; exact Hrows).
  assert (Hle : IZR y1 / IZR rows <= IZR y2 / IZR rows).
  { unfold Rdiv. apply Rmult_le_compat_r.
    - left. apply Rinv_0_lt_compat. exact HR.
    - apply IZR_le. exact Hy. }
  unfold Rdiv at 1 3. apply Rmult_le_compat_r.
  - left. apply Rinv_0_lt_compat. exact Hf.
  - lra.
Qed.

Lemma verticalMask_monotone_witness :
  verticalMask defaultParams 10 1 <= verticalMask defaultParams 10 7.
Proof.
  assert (Hf : 0 < maskFeatherY defaultParams) by (simpl; lra).
  assert (Hrows : (0 < 10)%Z) by lia.
  assert (Hy : (1 <= 7)%Z) by lia.
  exact (verticalMask_monotone defaultParams 10 1 7 Hf Hrows Hy).
Defined.

(** * Further properties of the grid builder *)

Lemma ceil_bounds (x : R) : IZR (JsMath.ceil x) - 1 < x <= IZR (JsMath.ceil x).
Proof.
  unfold JsMath.ceil. rewrite opp_IZR.
  destruct (floor_bounds (- x)) as [F1 F2]. unfold JsMath.floor in F1, F2. lra.
Qed.

Lemma sampleLibs_unit : unitGenerator sampleLibs.
Proof.
  intros n. cbn [next sampleLibs fst].
  assert (Hm : (n mod 4 < 4)%nat) by (apply Nat.mod_upper_bound; discriminate).
  assert (H0 : 0 <= IZR (Z.of_nat (n mod 4))) by (apply IZR_le; lia).
  assert (H1 : IZR (Z.of_nat (n mod 4)) <= 3) by (apply IZR_le; lia).
  lra.
Qed.

(** X8. When the product of the two cell counts is negative the builder
    throws a [RangeError]: it has refreshed the palette by then, and the
    grid retained before the call stays in place. *)
Theorem initGrid_throws (L : Libs) (p : Params) (width height : R) (c : Component) :
  let cols := JsMath.ceil (width / (pixelSize p + gap p)) in
  let rows := JsMath.ceil (height / (pixelSize p + gap p)) in
  (cols * rows < 0)%Z ->
  initGrid L p width height c
  = (mkComponent (updatePalette p) (gridData c), ThrowRangeError).
Proof.
  cbv zeta. intros Hneg.
  destruct (initGrid_cases L p width height c) as [[N E]|[N E]]; [exact E | lia].
Qed.

Lemma initGrid_throws_witness :
  initGrid sampleLibs defaultParams (-100) 100
    (mkComponent initialPalette (Some (mkGrid 1 1 [1%nat] [1 / 2] [1 / 4])))
  = (mkComponent (updatePalette defaultParams) (Some (mkGrid 1 1 [1%nat] [1 / 2] [1 / 4])),
     ThrowRangeError).
Proof.
  apply (initGrid_throws sampleLibs defaultParams (-100) 100
           (mkComponent initialPalette (Some (mkGrid 1 1 [1%nat] [1 / 2] [1 / 4])))).
  rewrite ceil_neg100_8, ceil_100_8. lia.
Defined.

(** X9. When the builder completes on a surface whose width and height
    are positive integers (as [clientWidth] and [clientHeight] are, below
    [2^53]) with a pitch that is a positive integer (as the sliders give
    it), the grid has at least one column and one row, and its columns and
    rows cover the surface with less than one pitch to spare. *)
Theorem initGrid_positive_surface (L : Libs) (p : Params) (width height pitch : Z)
  (c : Component) (gd : GridData) :
  pixelSize p + gap p = IZR pitch -> (0 < pitch)%Z ->
  (0 < width < 2 ^ 53)%Z -> (0 < height < 2 ^ 53)%Z ->
  initGrid L p (IZR width) (IZR height) c
  = (mkComponent (updatePalette p) (Some gd), Normal) ->
  (1 <= cols gd)%Z /\ (1 <= rows gd)%Z /\
  ((cols gd - 1) * pitch < width <= cols gd * pitch)%Z /\
  ((rows gd - 1) * pitch < height <= rows gd * pitch)%Z.
Proof.
  intros Hpitch Hk [Hw _] [Hh _] Hbuilt.
  assert (HK : 0 < IZR pitch) by (apply IZR_lt; exact Hk).
  assert (Hcount : forall v, (0 < v)%Z ->
            (1 <= JsMath.ceil (IZR v / IZR pitch))%Z /\
            ((JsMath.ceil (IZR v / IZR pitch) - 1) * pitch < v
             <= JsMath.ceil (IZR v / IZR pitch) * pitch)%Z).
  { intros v Hv. destruct (ceil_bounds (IZR v / IZR pitch)) as [B1 B2].
    assert (HV : 0 < IZR v) by (apply IZR_lt; exact Hv).
    assert (Hq : 0 < IZR v / IZR pitch).
    { unfold Rdiv. apply Rmult_lt_0_compat; [exact HV | apply Rinv_0_lt_compat; exact HK]. }
    assert (Hv' : IZR v = IZR v / IZR pitch * IZR pitch) by (field; lra).
    split; [|split].
    - assert (0 < JsMath.ceil (IZR v / IZR pitch))%Z; [|lia]. apply lt_IZR. lra.
    - apply lt_IZR. rewrite mult_IZR, minus_IZR.
      rewrite Hv' at 2. apply Rmult_lt_compat_r; lra.
    - apply le_IZR. rewrite mult_IZR.
      rewrite Hv' at 1. apply Rmult_le_compat_r; lra. }
  destruct (Hcount width Hw) as [Hc1 Hc2]. destruct (Hcount height Hh) as [Hr1 Hr2].
  destruct (initGrid_cases L p (IZR width) (IZR height) c) as [[N E]|[N E]];
    rewrite E in Hbuilt; [discriminate Hbuilt|].
  inversion Hbuilt as [Hgd]. cbn [cols rows]. rewrite Hpitch.
  repeat split; try assumption; lia.
Qed.

Lemma initGrid_positive_surface_witness :
  (1 <= 13)%Z /\ ((13 - 1) * 8 < 100 <= 13 * 8)%Z.
Proof.
  assert (Hpitch : pixelSize defaultParams + gap defaultParams = 8) by (simpl; lra).
  assert (Hw : (0 < 100 < 2 ^ 53)%Z) by (split; [lia | reflexivity]).
  destruct (initGrid_cases sampleLibs defaultParams 100 100 initialComponent)
    as [[N E]|[N E]]; rewrite ?ceil_100_8 in N; [lia|].
  rewrite ceil_100_8 in E.
  destruct (initGrid_positive_surface sampleLibs defaultParams 100 100 8 initialComponent _
              Hpitch ltac:(lia) Hw Hw E) as (Hc & _ & Hcover & _).
  cbn [cols] in Hc, Hcover. split; assumption.
Defined.

(** ** What the loop writes *)

Section BuilderValues.

Variable L : Libs.
Variable p : Params.
Variables cols rows : Z.

(** A cell is gray, yellow or pink. *)
Lemma initCell_types (i : Z) (s : BuildState L) :
  Forall (fun ty => (ty <= 2)%nat) (b_targetTypes s) ->
  Forall (fun ty => (ty <= 2)%nat) (b_targetTypes (initCell L p cols rows i s)).
Proof.
  intros H. unfold initCell. destruct (next L (rng s)) as [u rng1].
  destruct (hasAccentNeighbor _ _ _ _ _).
  - cbn [b_targetTypes]. apply set_Forall; [exact H | lia].
  - destruct (next L rng1) as [v rng2].
    destruct (Rlt_dec _ _); [|destruct (Rlt_dec _ _)];
      cbn [b_targetTypes]; (apply set_Forall; [exact H | lia]).
Qed.

Lemma initCell_biases (i : Z) (s : BuildState L) :
  unitGenerator L ->
  Forall (fun v => -1 <= v <= 1) (b_biases s) ->
  Forall (fun v => -1 <= v <= 1) (b_biases (initCell L p cols rows i s)).
Proof.
  intros Hgen H. unfold initCell.
  pose proof (Hgen (rng s)) as Hu.
  destruct (next L (rng s)) as [u rng1]. cbn [fst] in Hu.
  assert (Hv : -1 <= u * 2 - 1 <= 1) by lra.
  destruct (hasAccentNeighbor _ _ _ _ _).
  - cbn [b_biases]. apply set_Forall; assumption.
  - destruct (next L rng1) as [v rng2].
    destruct (Rlt_dec _ _); [|destruct (Rlt_dec _ _)];
      cbn [b_biases]; (apply set_Forall; assumption).
Qed.

(** Without probability mass for the accents every cell is gray. *)
Lemma initCell_no_accent (i : Z) (s : BuildState L) :
  (forall gen : Prng L, 0 <= fst (next L gen)) ->
  accentYellowProb p <= 0 -> accentYellowProb p + accentPinkProb p <= 0 ->
  Forall (fun ty => ty = 0%nat) (b_targetTypes s) ->
  Forall (fun ty => ty = 0%nat) (b_targetTypes (initCell L p cols rows i s)).
Proof.
  intros Hgen Hy Hp H. unfold initCell. destruct (next L (rng s)) as [u rng1].
  destruct (hasAccentNeighbor _ _ _ _ _).
  - cbn [b_targetTypes]. apply set_Forall; [exact H | reflexivity].
  - pose proof (Hgen rng1) as Hv.
    destruct (next L rng1) as [v rng2]. cbn [fst] in Hv.
    destruct (Rlt_dec _ _); [lra|]. destruct (Rlt_dec _ _); [lra|].
    cbn [b_targetTypes]. apply set_Forall; [exact H | reflexivity].
Qed.

End BuilderValues.

(** The grid of a build that completes is the grid the loop leaves. *)
Lemma initGrid_built (L : Libs) (p : Params) (width height : R) (c : Component)
  (gd : GridData) :
  snd (initGrid L p width height c) = Normal ->
  gridData (fst (initGrid L p width height c)) = Some gd ->
  let cs := JsMath.ceil (width / (pixelSize p + gap p)) in
  let rs := JsMath.ceil (height / (pixelSize p + gap p)) in
  exists s0,
    b_targetTypes s0 = repeat 0%nat (Z.to_nat (cs * rs)) /\
    b_biases s0 = repeat 0 (Z.to_nat (cs * rs)) /\
    b_activations s0 = repeat 0 (Z.to_nat (cs * rs)) /\
    let s := for_upto (cs * rs) (initCell L p cs rs) s0 in
    gd = mkGrid cs rs (b_targetTypes s) (b_biases s) (b_activations s).
Proof.
  intros Hn Hg. cbv zeta.
  destruct (initGrid_cases L p width height c) as [[N E]|[N E]];
    rewrite E in Hn, Hg; [discriminate Hn|].
  cbn [fst gridData] in Hg. inversion Hg as [Egd].
  eexists (mkBuild _ _ _ _). cbn [b_targetTypes b_biases b_activations].
  repeat split.
Qed.

Lemma repeat_Forall {A : Type} (P : A -> Prop) (a : A) (n : nat) :
  P a -> Forall P (repeat a n).
Proof. intros H. induction n; simpl; constructor; auto. Qed.

(** X10. After a build that completes every entry of [targetTypes] is
    [0], [1] or [2]. *)
Theorem initGrid_types (L : Libs) (p : Params) (width height : R) (c : Component)
  (gd : GridData) :
  snd (initGrid L p width height c) = Normal ->
  gridData (fst (initGrid L p width height c)) = Some gd ->
  Forall (fun ty => (ty <= 2)%nat) (targetTypes gd).
Proof.
  intros Hn Hg.
  destruct (initGrid_built L p width height c gd Hn Hg) as (s0 & Ht & _ & _ & ->).
  cbn [targetTypes].
  apply (for_upto_preserves (fun s => Forall (fun ty => (ty <= 2)%nat) (b_targetTypes s))).
  - rewrite Ht. apply repeat_Forall. lia.
  - intros i s' _. apply initCell_types.
Qed.

Lemma initGrid_types_witness :
  Forall (fun ty => (ty <= 2)%nat) [2; 0; 1]%nat.
Proof.
  apply (initGrid_types sampleLibs defaultParams 24 8 initialComponent
           (mkGrid 3 1 [2; 0; 1]%nat [-1; 0; 1 / 2] [0; 0; 0])).
  - rewrite initGrid_sample_row. reflexivity.
  - rewrite initGrid_sample_row. reflexivity.
Defined.

(** X11. With a generator that yields numbers of [[0,1)], after a build
    that completes every bias lies in [[-1,1]]. *)
Theorem initGrid_biases (L : Libs) (p : Params) (width height : R) (c : Component)
  (gd : GridData) :
  unitGenerator L ->
  snd (initGrid L p width height c) = Normal ->
  gridData (fst (initGrid L p width height c)) = Some gd ->
  Forall (fun v => -1 <= v <= 1) (biases gd).
Proof.
  intros Hgen Hn Hg.
  destruct (initGrid_built L p width height c gd Hn Hg) as (s0 & _ & Hb & _ & ->).
  cbn [biases].
  apply (for_upto_preserves (fun s => Forall (fun v => -1 <= v <= 1) (b_biases s))).
  - rewrite Hb. apply repeat_Forall. lra.
  - intros i s' _. apply initCell_biases. exact Hgen.
Qed.

Lemma initGrid_biases_witness :
  Forall (fun v => -1 <= v <= 1) [-1; 0; 1 / 2].
Proof.
  apply (initGrid_biases sampleLibs defaultParams 24 8 initialComponent
           (mkGrid 3 1 [2; 0; 1]%nat [-1; 0; 1 / 2] [0; 0; 0]) sampleLibs_unit).
  - rewrite initGrid_sample_row. reflexivity.
  - rewrite initGrid_sample_row. reflexivity.
Defined.

(** X12. When neither accent has probability mass
    ([accentYellowProb <= 0] and [accentYellowProb + accentPinkProb <= 0])
    and the generator yields no negative number, every cell of a build
    that completes is gray. *)
Theorem initGrid_no_accent (L : Libs) (p : Params) (width height : R) (c : Component)
  (gd : GridData) :
  (forall gen : Prng L, 0 <= fst (next L gen)) ->
  accentYellowProb p <= 0 -> accentYellowProb p + accentPinkProb p <= 0 ->
  snd (initGrid L p width height c) = Normal ->
  gridData (fst (initGrid L p width height c)) = Some gd ->
  Forall (fun ty => ty = 0%nat) (targetTypes gd).
Proof.
  intros Hgen Hy Hp Hn Hg.
  destruct (initGrid_built L p width height c gd Hn Hg) as (s0 & Ht & _ & _ & ->).
  cbn [targetTypes].
  apply (for_upto_preserves (fun s => Forall (fun ty => ty = 0%nat) (b_targetTypes s))).
  - rewrite Ht. apply repeat_Forall. reflexivity.
  - intros i s' _. apply initCell_no_accent; assumption.
Qed.

Lemma initGrid_no_accent_witness :
  exists gd,
    gridData (fst (initGrid sampleLibs grayParams 100 100 initialComponent)) = Some gd /\
    Forall (fun ty => ty = 0%nat) (targetTypes gd).
Proof.
  assert (Hgen : forall gen : Prng sampleLibs, 0 <= fst (next sampleLibs gen))
    by (intros gen; apply sampleLibs_unit).
  assert (Hy : accentYellowProb grayParams <= 0) by (simpl; lra).
  assert (Hp : accentYellowProb grayParams + accentPinkProb grayParams <= 0)
    by (simpl; lra).
  destruct (initGrid_cases sampleLibs grayParams 100 100 initialComponent)
    as [[N E]|[N E]].
  - exfalso. change (pixelSize grayParams + gap grayParams)
      with (pixelSize defaultParams + gap defaultParams) in N.
    rewrite ceil_100_8 in N. lia.
  - eexists. split; [rewrite E; reflexivity|].
    apply (initGrid_no_accent sampleLibs grayParams 100 100 initialComponent _ Hgen Hy Hp);
      rewrite E; reflexivity.
Defined.

(** ** Accents never touch *)

(** Of two cells that touch, one is in the half-neighborhood of the
    other. *)
Lemma adjacent_half (x y x' y' : Z) :
  adjacent x y x' y' ->
  In (x', y') (halfNeighborhood x y) \/ In (x, y) (halfNeighborhood x' y').
Proof.
  intros (Hne & Hx & Hy).
  assert (Dx : (x' = x - 1 \/ x' = x \/ x' = x + 1)%Z) by lia.
  assert (Dy : (y' = y - 1 \/ y' = y \/ y' = y + 1)%Z) by lia.
  unfold halfNeighborhood.
  destruct Dy as [Ey|[Ey|Ey]]; destruct Dx as [Ex|[Ex|Ex]]; subst x' y'.
  - left. right. left. reflexivity.
  - left. right. right. left. reflexivity.
  - left. right. right. right. left. reflexivity.
  - left. left. reflexivity.
  - contradiction Hne. reflexivity.
  - right. left. f_equal; lia.
  - right. right. right. right. left. f_equal; lia.
  - right. right. right. left. f_equal; lia.
  - right. right. left. f_equal; lia.
Qed.

(** The grid of a build that completes keeps the rule of the scan. *)
Lemma initGrid_half_neighborhood (L : Libs) (p : Params) (width height : R)
  (c : Component) (gd : GridData) :
  snd (initGrid L p width height c) = Normal ->
  gridData (fst (initGrid L p width height c)) = Some gd ->
  forall x y,
    inGrid gd x y -> colorClass gd x y <> 0%nat ->
    forall nx ny,
      In (nx, ny) (halfNeighborhood x y) -> inGrid gd nx ny ->
      colorClass gd nx ny = 0%nat.
Proof.
  intros Hn Hg.
  destruct (initGrid_built L p width height c gd Hn Hg) as (s0 & Ht & _ & _ & ->).
  unfold inGrid, colorClass. cbn [cols rows targetTypes].
  set (cs := JsMath.ceil (width / (pixelSize p + gap p))) in *.
  set (rs := JsMath.ceil (height / (pixelSize p + gap p))) in *.
  intros x y [Hx Hy] Hacc nx ny Hin [Hnx Hny].
  assert (Hcs : (0 < cs)%Z) by lia.
  assert (Hidx : (y * cs + x < cs * rs)%Z) by nia.
  refine (initLoop_spread L p cs rs Hcs (cs * rs) s0 _ x y Hx Hy Hidx Hacc nx ny Hin Hnx Hny).
  rewrite Ht. apply repeat_length.
Qed.

(** X13. After a build that completes no two accent cells touch, by a
    side or by a corner: the scan of the earlier half-neighborhood is
    enough, since of two cells that touch the later one scans the
    earlier. *)
Theorem initGrid_accents_apart (L : Libs) (p : Params) (width height : R)
  (c : Component) (gd : GridData) :
  snd (initGrid L p width height c) = Normal ->
  gridData (fst (initGrid L p width height c)) = Some gd ->
  forall x y x' y',
    inGrid gd x y -> inGrid gd x' y' -> adjacent x y x' y' ->
    colorClass gd x y <> 0%nat -> colorClass gd x' y' = 0%nat.
Proof.
  intros Hn Hg x y x' y' Hc Hc' Hadj Hacc.
  pose proof (initGrid_half_neighborhood L p width height c gd Hn Hg) as Hhalf.
  destruct (adjacent_half x y x' y' Hadj) as [Hin|Hin].
  - exact (Hhalf x y Hc Hacc x' y' Hin Hc').
  - destruct (Nat.eq_dec (colorClass gd x' y') 0) as [E|Hacc']; [exact E|].
    exfalso. apply Hacc. exact (Hhalf x' y' Hc' Hacc' x y Hin Hc).
Qed.

Lemma initGrid_accents_apart_witness :
  colorClass (mkGrid 3 1 [2; 0; 1]%nat [-1; 0; 1 / 2] [0; 0; 0]) 1 0 = 0%nat.
Proof.
  set (gd := mkGrid 3 1 [2; 0; 1]%nat [-1; 0; 1 / 2] [0; 0; 0]).
  assert (Hn : snd (initGrid sampleLibs defaultParams 24 8 initialComponent) = Normal)
    by (rewrite initGrid_sample_row; reflexivity).
  assert (Hg : gridData (fst (initGrid sampleLibs defaultParams 24 8 initialComponent))
               = Some gd)
    by (rewrite initGrid_sample_row; reflexivity).
  assert (Hc : inGrid gd 0 0) by (unfold inGrid; simpl; lia).
  assert (Hc' : inGrid gd 1 0) by (unfold inGrid; simpl; lia).
  assert (Hadj : adjacent 0 0 1 0).
  { unfold adjacent. split; [intros E; inversion E | simpl; lia]. }
  assert (Hacc : colorClass gd 0 0 <> 0%nat) by (vm_compute; discriminate).
  exact (initGrid_accents_apart sampleLibs defaultParams 24 8 initialComponent gd
           Hn Hg 0%Z 0%Z 1%Z 0%Z Hc Hc' Hadj Hacc).
Defined.


(** * Further properties of the frame renderer *)

(** ** A mask that hides every row *)

Lemma verticalMask_hidden (p : Params) (rows y : Z) :
  maskHeight p <= 0 -> 0 < maskFeatherY p -> (0 <= y < rows)%Z ->
  verticalMask p rows y <= 0.
Proof.
  intros Hm Hf Hy. unfold verticalMask. cbv zeta.
  rewrite clamp01_low; [lra|].
  assert (HR : 0 < IZR rows) by (apply IZR_lt; lia).
  assert (Hny : IZR y / IZR rows < 1).
  { apply Rmult_lt_reg_r with (IZR rows); [exact HR|].
    unfold Rdiv. rewrite Rmult_assoc, Rinv_l by lra.
    rewrite Rmult_1_r, Rmult_1_l. apply IZR_lt. lia. }
  replace 0 with (0 * / maskFeatherY p) by ring.
  unfold Rdiv. apply Rmult_le_compat_r; [|lra].
  left. apply Rinv_0_lt_compat. exact Hf.
Qed.

(** X15. With [maskHeight <= 0] (and a positive feather) every row is
    masked: a frame clears the background, draws no cell and leaves the
    grid, its activations included, as it was. *)
Theorem draw_hidden (L : Libs) (p : Params) (reducedMotion : bool)
  (canvas : option Canvas) (time : R) (pal : Palette) (gd : GridData) :
  maskHeight p <= 0 -> 0 < maskFeatherY p ->
  draw L p reducedMotion canvas time (mkComponent pal (Some gd))
  = (mkComponent pal (Some gd), clearOps pal canvas).
Proof.
  intros Hm Hf. unfold draw. destruct canvas as [cv|]; [|reflexivity].
  cbn [gridData palette clearOps].
  set (s0 := mkDraw gd _).
  set (t := if reducedMotion then 0 else time * (1 / 1000)).
  assert (E : for_upto (rows gd) (drawRow L p pal t) s0 = s0).
  { apply (for_upto_preserves (fun s => s = s0)); [reflexivity|].
    intros y s' Hy ->. unfold drawRow. cbn [d_grid s0].
    destruct (Rle_dec (verticalMask p (rows gd) y) 0) as [_|Hn]; [reflexivity|].
    exfalso. apply Hn. apply verticalMask_hidden; assumption. }
  rewrite E. reflexivity.
Qed.

Lemma draw_hidden_witness :
  draw sampleLibs (setMaskHeight 0 defaultParams) false (Some (mkCanvas 24 8)) 16
    (mkComponent (updatePalette defaultParams)
       (Some (mkGrid 3 1 [2; 0; 1]%nat [-1; 0; 1 / 2] [1 / 4; 0; 1])))
  = (mkComponent (updatePalette defaultParams)
       (Some (mkGrid 3 1 [2; 0; 1]%nat [-1; 0; 1 / 2] [1 / 4; 0; 1])),
     clearOps (updatePalette defaultParams) (Some (mkCanvas 24 8))).
Proof.
  apply draw_hidden; simpl; lra.
Defined.

(** ** The values a frame hands to the context *)

Lemma floor_between (x : R) (lo hi : Z) :
  IZR lo <= x <= IZR hi -> (lo <= JsMath.floor x <= hi)%Z.
Proof.
  intros [H1 H2]. destruct (floor_bounds x) as [F1 F2]. split.
  - assert (lo < JsMath.floor x + 1)%Z; [|lia].
    apply lt_IZR. rewrite plus_IZR. lra.
  - apply le_IZR. lra.
Qed.

Lemma betweenZ_channel (a x c : Z) :
  channel a -> channel c -> betweenZ a x c -> channel x.
Proof. unfold channel, betweenZ. lia. Qed.

Lemma cellColor_valid (p : Params) (pal : Palette) (type : nat) (current : R) :
  paletteChannels pal -> validOp (SetFillStyle (cellColor p pal type current)).
Proof.
  intros (_ & (Gr & Gg & Gb) & (Yr & Yg & Yb) & (Pr & Pg & Pb)).
  unfold cellColor. destruct (type =? 0)%nat; [exact I|].
  unfold mixColor.
  destruct (Rlt_dec _ _) as [|Hlo]; [exact I|].
  destruct (Rgt_dec _ _) as [|Hhi]; [exact I|].
  assert (Hmix : 0 <= accentMix p current <= 1) by lra.
  unfold lerpColor. cbn [validOp].
  destruct (type =? 1)%nat; repeat split;
    (eapply betweenZ_channel; [| | apply lerp_channel_between; exact Hmix]; assumption).
Qed.

Lemma alpha_unit (p : Params) (current maskVal : R) :
  alphaParams p -> inUnit current -> inUnit maskVal ->
  0 <= (baseAlpha p + current * activeAlphaBoost p) * maskVal <= 1.
Proof.
  intros (Hb & Ha & Hsum) [Hc0 Hc1] [Hm0 Hm1].
  assert (H1 : 0 <= current * activeAlphaBoost p) by (apply Rmult_le_pos; lra).
  assert (H2 : 0 <= (1 - current) * activeAlphaBoost p) by (apply Rmult_le_pos; lra).
  assert (H3 : 0 <= (baseAlpha p + current * activeAlphaBoost p) * maskVal)
    by (apply Rmult_le_pos; lra).
  assert (H4 : 0 <= (baseAlpha p + current * activeAlphaBoost p) * (1 - maskVal))
    by (apply Rmult_le_pos; lra).
  lra.
Qed.

Lemma debugGray_channel (current maskVal : R) :
  inUnit current -> inUnit maskVal -> channel (JsMath.floor (current * 255 * maskVal)).
Proof.
  intros [Hc0 Hc1] [Hm0 Hm1]. unfold channel. apply floor_between.
  assert (H1 : 0 <= current * 255 * maskVal)
    by (apply Rmult_le_pos; [apply Rmult_le_pos; lra | lra]).
  assert (H2 : 0 <= current * 255 * (1 - maskVal))
    by (apply Rmult_le_pos; [apply Rmult_le_pos; lra | lra]).
  lra.
Qed.

Section FrameValues.

Variable L : Libs.
Variable p : Params.
Variable pal : Palette.
Variable t : R.
Hypothesis smoothing_ok : 0 < smoothing p <= 1.
Hypothesis gamma_ok : 0 < mixGamma p.
Hypothesis alpha_ok : alphaParams p.
Hypothesis palette_ok : paletteChannels pal.

Let sound (s : DrawState) : Prop :=
  Forall inUnit (activations (d_grid s)) /\ Forall validOp (d_ops s).

Lemma drawCell_sound (maskVal : R) (y x : Z) (s : DrawState) :
  inUnit maskVal -> sound s -> sound (drawCell L p pal t maskVal y x s).
Proof.
  intros Hm [Hu Hops]. split.
  - apply (drawCell_unit L p pal t maskVal y x s smoothing_ok gamma_ok Hu).
  - assert (Hcur : inUnit (smooth p (get 0 (activations (d_grid s)) (y * cols (d_grid s) + x))
                             (cellTarget L p t x y
                                (get 0 (biases (d_grid s)) (y * cols (d_grid s) + x))))).
    { apply smooth_unit; [exact smoothing_ok | | apply cellTarget_unit; exact gamma_ok].
      apply get_Forall; [exact Hu | unfold inUnit; lra]. }
    unfold drawCell. destruct (debugView p); cbn [d_ops]; apply Forall_app; split;
      try exact Hops.
    + constructor; [|constructor; [exact I | constructor]].
      cbn [validOp]. pose proof (debugGray_channel _ _ Hcur Hm) as Hv. auto.
    + constructor; [|constructor; [|constructor; [exact I | constructor]]].
      * cbn [validOp]. apply alpha_unit; assumption.
      * apply cellColor_valid. exact palette_ok.
Qed.

Lemma drawRow_sound (y : Z) (s : DrawState) : sound s -> sound (drawRow L p pal t y s).
Proof.
  intros Hs. unfold drawRow. destruct (Rle_dec _ 0); [exact Hs|].
  apply (for_upto_preserves sound); [exact Hs|].
  intros x s' _. apply drawCell_sound. apply clamp01_range.
Qed.

End FrameValues.

(** X16. When the activations are in [[0,1]], the smoothing factor in
    [(0,1]], the gamma positive, the feather of the vertical mask positive,
    the two threshold bands open ([openBands]), the palette made of
    eight-bit channels, and the opacity parameters not negative with a sum
    of [1] at most, every opacity a frame sets is in [[0,1]] and every
    [rgb(...)] fill style it sets has channels from [0] to [255], in the
    debug view too. *)
Theorem draw_values_in_range (L : Libs) (p : Params) (reducedMotion : bool)
  (canvas : option Canvas) (time : R) (c : Component) (gd : GridData) :
  gridData c = Some gd ->
  Forall inUnit (activations gd) ->
  0 < smoothing p <= 1 -> 0 < mixGamma p ->
  0 < maskFeatherY p -> openBands p ->
  alphaParams p -> paletteChannels (palette c) ->
  Forall validOp (snd (draw L p reducedMotion canvas time c)).
Proof.
  intros Hgd Hu Hs Hg _ _ Ha Hpal. unfold draw. rewrite Hgd.
  destruct canvas as [cv|]; [|constructor].
  cbn [snd].
  refine (proj2 (for_upto_preserves
                   (fun s => Forall inUnit (activations (d_grid s)) /\ Forall validOp (d_ops s))
                   _ _ _ _ _)).
  - cbn [d_grid d_ops]. split; [exact Hu|].
    constructor; [|constructor; [exact I | constructor]].
    cbn [validOp]. destruct Hpal as ((Br & Bg & Bb) & _). auto.
  - intros y s' _. apply drawRow_sound; assumption.
Qed.

Lemma draw_values_in_range_witness :
  Forall validOp
    (snd (draw sampleLibs defaultParams false (Some (mkCanvas 24 8)) 16
            (mkComponent (updatePalette defaultParams)
               (Some (mkGrid 3 2 [2; 0; 1; 0; 0; 0]%nat
                        [-1; 0; 1 / 2; 0; 1; 0] [0; 0; 0; 1 / 2; 1; 0]))))).
Proof.
  set (gd := mkGrid 3 2 [2; 0; 1; 0; 0; 0]%nat
               [-1; 0; 1 / 2; 0; 1; 0] [0; 0; 0; 1 / 2; 1; 0]).
  apply (draw_values_in_range sampleLibs defaultParams false (Some (mkCanvas 24 8)) 16
           (mkComponent (updatePalette defaultParams) (Some gd)) gd eq_refl).
  - unfold gd, inUnit. cbn [activations]. repeat constructor; lra.
  - simpl. lra.
  - simpl. lra.
  - simpl. lra.
  - unfold openBands, openBand, Rabs. simpl. split; destruct (Rcase_abs _); lra.
  - unfold alphaParams. simpl. lra.
  - unfold paletteChannels, channels, channel. vm_compute.
    repeat split; discriminate.
Defined.

(** ** The bias of a cell *)

Lemma pow_monotone (x y g : R) :
  0 <= x -> x <= y -> 0 < g -> JsMath.pow x g <= JsMath.pow y g.
Proof.
  intros Hx Hxy Hg. unfold JsMath.pow.
  destruct (Req_dec_T x 0) as [Hx0|Hx0]; destruct (Req_dec_T y 0) as [Hy0|Hy0].
  - lra.
  - destruct (Req_dec_T g 0); [lra|]. left. unfold Rpower. apply exp_pos.
  - lra.
  - apply Rle_Rpower_l; lra.
Qed.

(** X17. With a bias strength that is not negative and a positive gamma,
    the target of a cell never decreases when its bias increases. *)
Theorem cellTarget_monotone_bias (L : Libs) (p : Params) (t : R) (x y : Z)
  (bias1 bias2 : R) :
  0 <= biasStrength p -> 0 < mixGamma p -> bias1 <= bias2 ->
  cellTarget L p t x y bias1 <= cellTarget L p t x y bias2.
Proof.
  intros Hs Hg Hb. unfold cellTarget. cbv zeta.
  set (m := smoothstepMask _ _ _ * smoothstepMask _ _ _).
  assert (Hc : clamp01 (m + bias1 * biasStrength p) <= clamp01 (m + bias2 * biasStrength p)).
  { apply clamp01_mono. apply Rplus_le_compat_l. apply Rmult_le_compat_r; assumption. }
  destruct (Req_dec_T (mixGamma p) 1); [exact Hc|].
  apply pow_monotone; [apply clamp01_range | exact Hc | exact Hg].
Qed.

Lemma cellTarget_monotone_bias_witness :
  cellTarget sampleLibs defaultParams 0 2 1 (-1) <= cellTarget sampleLibs defaultParams 0 2 1 (1 / 2).
Proof.
  apply cellTarget_monotone_bias; simpl; lra.
Defined.

(** * [handleResize] *)

(** X18. A resize with a container and a mounted canvas whose build
    completes restarts the animation (the feather of the vertical mask
    being positive): the grid it leaves has the layout just built, every
    cell of a row whose vertical mask is [0] holds the activation [0],
    whatever was retained before, and without a 2D context no frame is
    drawn and the grid is the one just built. *)
Theorem handleResize_restarts (L : Libs) (p : Params) (h : Host) (c : Component)
  (w ht : R) (gd0 : GridData) :
  container h = Some (w, ht) -> canvasMounted h = true ->
  0 < maskFeatherY p ->
  initGrid L p w ht c = (mkComponent (updatePalette p) (Some gd0), Normal) ->
  exists gd',
    fst (handleResize L p h c) = (mkComponent (updatePalette p) (Some gd'), Normal) /\
    sameLayout gd0 gd' /\
    (forall x y, inGrid gd0 x y -> verticalMask p (rows gd0) y = 0 ->
       activationAt gd' x y = 0) /\
    (contextAvailable h = false ->
       gd' = gd0 /\ forall op, ~ In (OnContext op) (snd (handleResize L p h c))).
Proof.
  intros Hcont Hcanvas _ Hbuilt.
  assert (Hzero : Forall (fun a => a = 0) (activations gd0)).
  { destruct (initGrid_cases L p w ht c) as [[N E]|[N E]]; rewrite E in Hbuilt;
      [discriminate Hbuilt|].
    inversion Hbuilt as [Hgd]. cbn [activations].
    apply initLoop_activations_zero. cbn [b_activations].
    apply repeat_Forall. reflexivity. }
  assert (Hget : forall x y, activationAt gd0 x y = 0).
  { intros x y. unfold activationAt.
    apply (get_Forall (fun a => a = 0)); [exact Hzero | reflexivity]. }
  unfold handleResize. rewrite Hcont, Hcanvas, Hbuilt.
  destruct (contextAvailable h).
  - unfold draw. cbn [gridData palette fst snd].
    set (t := if reducedMotionPreferred h then 0 else now h * (1 / 1000)).
    set (s0 := mkDraw gd0 _).
    destruct (drawRows_kept L p (updatePalette p) t gd0 s0) as [Hlay Hact].
    { split; [repeat split | reflexivity]. }
    eexists. split; [reflexivity|]. split; [exact Hlay|]. split; [|discriminate].
    intros x y Hin Hmask. rewrite (Hact x y Hin Hmask). apply Hget.
  - unfold draw. cbn [fst snd map]. exists gd0.
    split; [reflexivity|]. split; [repeat split|]. split.
    + intros x y _ _. apply Hget.
    + intros _. split; [reflexivity|]. intros op Hin.
      rewrite app_nil_r in Hin. simpl in Hin.
      destruct Hin as [Hin|[Hin|[]]]; discriminate Hin.
Qed.

Lemma handleResize_restarts_witness :
  exists gd',
    fst (handleResize sampleLibs defaultParams (sampleHost 24 16)
           (mkComponent initialPalette (Some (mkGrid 1 1 [1%nat] [1 / 2] [1 / 4]))))
    = (mkComponent (updatePalette defaultParams) (Some gd'), Normal) /\
    cols gd' = 3%Z /\ rows gd' = 2%Z /\ activationAt gd' 2 0 = 0.
Proof.
  set (c := mkComponent initialPalette (Some (mkGrid 1 1 [1%nat] [1 / 2] [1 / 4]))).
  assert (Hf : 0 < maskFeatherY defaultParams) by (simpl; lra).
  destruct (initGrid_cases sampleLibs defaultParams 24 16 c) as [[N E]|[N E]];
    rewrite ceil_24_8, ceil_16_8 in N; [lia|].
  rewrite ceil_24_8, ceil_16_8 in E.
  destruct (handleResize_restarts sampleLibs defaultParams (sampleHost 24 16) c 24 16 _
              eq_refl eq_refl Hf E) as (gd' & Eh & (Hc & Hr & _) & Hzero & _).
  exists gd'. split; [exact Eh|]. split; [exact Hc|]. split; [exact Hr|].
  apply Hzero.
  - unfold inGrid. cbn [cols rows]. lia.
  - cbn [rows]. rewrite verticalMask_full_height by reflexivity.
    apply clamp01_low. simpl. lra.
Defined.



(** * The rectangles of a frame *)

Lemma for_loop_last {S : Type} (body : Z -> S -> S) :
  forall (n : nat) (from : Z) (s : S),
    for_loop (Datatypes.S n) from body s
    = body (from + Z.of_nat n)%Z (for_loop n from body s).
Proof.
  induction n as [|k IH]; intros from s.
  - simpl. rewrite Z.add_0_r. reflexivity.
  - change (for_loop (Datatypes.S (Datatypes.S k)) from body s)
      with (for_loop (Datatypes.S k) (from + 1)%Z body (body from s)).
    rewrite IH. simpl for_loop.
    replace (from + 1 + Z.of_nat k)%Z with (from + Z.of_nat (Datatypes.S k))%Z by lia.
    reflexivity.
Qed.

Lemma visibleRows_step (p : Params) (rows k : Z) :
  (0 <= k)%Z ->
  visibleRows p rows (k + 1)
  = if Rle_dec (verticalMask p rows k) 0
    then visibleRows p rows k else S (visibleRows p rows k).
Proof.
  intros Hk. unfold visibleRows, for_upto.
  replace (Z.to_nat (k + 1)) with (Datatypes.S (Z.to_nat k)) by lia.
  rewrite for_loop_last. replace (0 + Z.of_nat (Z.to_nat k))%Z with k by lia.
  reflexivity.
Qed.

Lemma countRects_app (ops1 ops2 : list CtxOp) :
  countRects (ops1 ++ ops2) = (countRects ops1 + countRects ops2)%nat.
Proof.
  induction ops1 as [|[f|a|x y w h] tl IH]; simpl; auto.
Qed.

Section FrameRects.

Variable L : Libs.
Variable p : Params.
Variable pal : Palette.
Variable t : R.

(** A cell adds one rectangle, in the debug view too. *)
Lemma drawCell_rect (maskVal : R) (y x : Z) (s : DrawState) :
  countRects (d_ops (drawCell L p pal t maskVal y x s)) = S (countRects (d_ops s)) /\
  cols (d_grid (drawCell L p pal t maskVal y x s)) = cols (d_grid s) /\
  rows (d_grid (drawCell L p pal t maskVal y x s)) = rows (d_grid s).
Proof.
  rewrite drawCell_grid. cbv zeta. unfold set_activation. cbn [cols rows].
  split; [|split; reflexivity].
  unfold drawCell. destruct (debugView p); cbn [d_ops];
    rewrite countRects_app; simpl; lia.
Qed.

Lemma drawCells_rects (maskVal : R) (y : Z) (s : DrawState) (n : Z) :
  let s' := for_upto n (drawCell L p pal t maskVal y) s in
  countRects (d_ops s') = (countRects (d_ops s) + Z.to_nat n)%nat /\
  cols (d_grid s') = cols (d_grid s) /\ rows (d_grid s') = rows (d_grid s).
Proof.
  cbv zeta. destruct (Z_le_gt_dec n 0) as [Hempty|Hn'].
  { rewrite for_upto_nonpos by exact Hempty.
    replace (Z.to_nat n) with O by lia. auto. }
  assert (Hn : (0 <= n)%Z) by lia.
  apply (for_upto_invariant
           (fun k s' => countRects (d_ops s') = (countRects (d_ops s) + Z.to_nat k)%nat /\
                        cols (d_grid s') = cols (d_grid s) /\
                        rows (d_grid s') = rows (d_grid s))).
  - exact Hn.
  - simpl. auto.
  - intros k s' Hk (Hcount & Hc & Hr).
    destruct (drawCell_rect maskVal y k s') as (Hcount' & Hc' & Hr').
    rewrite Hcount', Hc', Hr', Hcount. repeat split; auto. lia.
Qed.

End FrameRects.

(** X20. A frame on a canvas fills one rectangle for the background and
    one for each cell of each row whose mask is positive, and none for
    the cells of the other rows. *)
Theorem draw_rectangles (L : Libs) (p : Params) (reducedMotion : bool)
  (cv : Canvas) (time : R) (c : Component) (gd : GridData) :
  gridData c = Some gd ->
  countRects (snd (draw L p reducedMotion (Some cv) time c))
  = (1 + Z.to_nat (cols gd) * visibleRows p (rows gd) (rows gd))%nat.
Proof.
  intros Hgd. unfold draw. rewrite Hgd. cbn [snd].
  set (s0 := mkDraw gd _).
  set (t := if reducedMotion then 0 else time * (1 / 1000)).
  destruct (Z_le_gt_dec (rows gd) 0) as [Hempty|Hpos].
  { rewrite for_upto_nonpos by exact Hempty.
    unfold visibleRows. rewrite for_upto_nonpos by exact Hempty.
    unfold s0. cbn. lia. }
  assert (Hrows : (0 <= rows gd)%Z) by lia.
  assert (Hinv :
    let s := for_upto (rows gd) (drawRow L p (palette c) t) s0 in
    countRects (d_ops s) = (1 + Z.to_nat (cols gd) * visibleRows p (rows gd) (rows gd))%nat /\
    cols (d_grid s) = cols gd /\ rows (d_grid s) = rows gd).
  { cbv zeta.
    apply (for_upto_invariant
             (fun k s => countRects (d_ops s)
                         = (1 + Z.to_nat (cols gd) * visibleRows p (rows gd) k)%nat /\
                         cols (d_grid s) = cols gd /\ rows (d_grid s) = rows gd)).
    - exact Hrows.
    - unfold s0, visibleRows. cbn. auto.
    - intros y s' Hy (Hcount & Hc & Hr).
      rewrite visibleRows_step by lia. unfold drawRow. rewrite Hr, Hc.
      destruct (Rle_dec (verticalMask p (rows gd) y) 0); [auto|].
      destruct (drawCells_rects L p (palette c) t (verticalMask p (rows gd) y) y s'
                  (cols gd)) as (Hcount' & Hc' & Hr').
      rewrite Hcount', Hc', Hr', Hcount. repeat split; auto. nia. }
  exact (proj1 Hinv).
Qed.

Lemma draw_rectangles_witness :
  countRects
    (snd (draw sampleLibs defaultParams false (Some (mkCanvas 24 8)) 16
            (mkComponent (updatePalette defaultParams)
               (Some (mkGrid 3 2 [2; 0; 1; 0; 0; 0]%nat
                        [-1; 0; 1 / 2; 0; 1; 0] [0; 0; 0; 0; 0; 0])))))
  = (1 + 3 * visibleRows defaultParams 2 2)%nat.
Proof.
  set (gd := mkGrid 3 2 [2; 0; 1; 0; 0; 0]%nat [-1; 0; 1 / 2; 0; 1; 0] [0; 0; 0; 0; 0; 0]).
  exact (draw_rectangles sampleLibs defaultParams false (mkCanvas 24 8) 16
           (mkComponent (updatePalette defaultParams) (Some gd)) gd eq_refl).
Defined.

(** * The grid over its lifetime *)

Section FrameShape.

Variable L : Libs.
Variable gd : GridData.

Let shaped (s : DrawState) : Prop :=
  sameLayout gd (d_grid s) /\
  List.length (activations (d_grid s)) = List.length (activations gd).

Lemma drawRow_shaped (p : Params) (pal : Palette) (t : R) (y : Z) (s : DrawState) :
  shaped s -> shaped (drawRow L p pal t y s).
Proof.
  intros Hs. unfold drawRow. destruct (Rle_dec _ 0); [exact Hs|].
  apply (for_upto_preserves shaped); [exact Hs|].
  intros x s' _ [(Hc & Hr & Ht & Hb) Hlen]. unfold shaped.
  rewrite drawCell_grid. cbv zeta. unfold sameLayout, set_activation.
  cbn [cols rows targetTypes biases activations]. rewrite set_length. auto 6.
Qed.

(** A frame keeps the layout and the size of the arrays. *)
Lemma drawFrame_shaped (c : Component) (f : Frame) :
  gridData c = Some gd -> wellFormed gd ->
  exists gd', gridData (drawFrame L c f) = Some gd' /\ sameLayout gd gd' /\ wellFormed gd'.
Proof.
  intros Hgd (Wt & Wb & Wa). unfold drawFrame, draw. rewrite Hgd.
  destruct (f_canvas f) as [cv|].
  - cbn [fst gridData]. eexists. split; [reflexivity|].
    match goal with
    | |- sameLayout gd (d_grid ?s) /\ _ =>
        assert (Hs : shaped s)
    end.
    { apply (for_upto_preserves shaped); [split; [repeat split | reflexivity]|].
      intros y s' _. apply drawRow_shaped. }
    destruct Hs as [Hlay Hlen]. split; [exact Hlay|].
    destruct Hlay as (Hc & Hr & Ht & Hb).
    unfold wellFormed. rewrite Hc, Hr, Ht, Hb, Hlen. auto.
  - exists gd. cbn [fst]. split; [exact Hgd|]. split; [repeat split|].
    unfold wellFormed. auto.
Qed.

End FrameShape.

Lemma sameLayout_trans (g1 g2 g3 : GridData) :
  sameLayout g1 g2 -> sameLayout g2 g3 -> sameLayout g1 g3.
Proof.
  intros (A1 & A2 & A3 & A4) (B1 & B2 & B3 & B4). unfold sameLayout.
  rewrite B1, B2, B3, B4. auto.
Qed.

Lemma runFrames_shaped (L : Libs) (fs : list Frame) :
  forall (c : Component) (gd : GridData),
    gridData c = Some gd -> wellFormed gd ->
    exists gd', gridData (runFrames L fs c) = Some gd' /\ sameLayout gd gd' /\ wellFormed gd'.
Proof.
  induction fs as [|f fs IH]; intros c gd Hgd Hwf.
  - exists gd. split; [exact Hgd|]. split; [repeat split | exact Hwf].
  - cbn [runFrames fold_left].
    destruct (drawFrame_shaped L gd c f Hgd Hwf) as (gd1 & E1 & Hlay1 & Hwf1).
    destruct (IH (drawFrame L c f) gd1 E1 Hwf1) as (gd' & E' & Hlay' & Hwf').
    exists gd'. split; [exact E'|]. split; [|exact Hwf'].
    eapply sameLayout_trans; eassumption.
Qed.

(** X21. From a build that completes on, through any number of frames
    with any parameters, the grid keeps the columns, rows, colour classes
    and biases of the build, and its three arrays keep one entry for each
    cell. *)
Theorem grid_layout_for_life (L : Libs) (p : Params) (width height : R)
  (c : Component) (frames : list Frame) :
  snd (initGrid L p width height c) = Normal ->
  exists gd0 gd,
    gridData (fst (initGrid L p width height c)) = Some gd0 /\
    gridData (runFrames L frames (fst (initGrid L p width height c))) = Some gd /\
    sameLayout gd0 gd /\ wellFormed gd.
Proof.
  intros Hn.
  destruct (initGrid_cases L p width height c) as [[N E]|[N E]];
    rewrite E in *; [discriminate Hn|]. cbn [fst].
  set (gd0 := mkGrid _ _ _ _ _).
  assert (Hwf : wellFormed gd0).
  { unfold wellFormed, gd0. cbn [cols rows targetTypes biases activations].
    apply initLoop_lengths. }
  destruct (runFrames_shaped L frames (mkComponent (updatePalette p) (Some gd0)) gd0
              eq_refl Hwf) as (gd & Egd & Hlay & Hwf').
  exists gd0, gd. auto.
Qed.

Lemma grid_layout_for_life_witness :
  exists gd,
    gridData (runFrames sampleLibs
                [mkFrame defaultParams false (Some (mkCanvas 24 8)) 16;
                 mkFrame (setMaskHeight 0 defaultParams) true None 32]
                (fst (initGrid sampleLibs defaultParams 24 8 initialComponent))) = Some gd /\
    targetTypes gd = [2; 0; 1]%nat /\ biases gd = [-1; 0; 1 / 2].
Proof.
  assert (Hn : snd (initGrid sampleLibs defaultParams 24 8 initialComponent) = Normal)
    by (rewrite initGrid_sample_row; reflexivity).
  destruct (grid_layout_for_life sampleLibs defaultParams 24 8 initialComponent
              [mkFrame defaultParams false (Some (mkCanvas 24 8)) 16;
               mkFrame (setMaskHeight 0 defaultParams) true None 32] Hn)
    as (gd0 & gd & E0 & E & (_ & _ & Ht & Hb) & _).
  rewrite initGrid_sample_row in E0. cbn [fst gridData] in E0.
  inversion E0 as [Egd0]. subst gd0.
  exists gd. split; [exact E|]. split; [exact Ht | exact Hb].
Defined.

(** * The smoother on the stored activations *)

Lemma floor_monotone (x y : R) : x <= y -> (JsMath.floor x <= JsMath.floor y)%Z.
Proof.
  intros Hxy. destruct (floor_bounds x) as [X1 X2]. destruct (floor_bounds y) as [Y1 Y2].
  destruct (Z_le_gt_dec (JsMath.floor x) (JsMath.floor y)) as [H|H]; [exact H|].
  exfalso. assert (Hz : (JsMath.floor y + 1 <= JsMath.floor x)%Z) by lia.
  apply IZR_le in Hz. rewrite plus_IZR in Hz. lra.
Qed.

Lemma pow2_pos (bits : nat) : 0 < 2 ^ bits.
Proof. apply pow_lt. lra. Qed.

Lemma nearest_monotone (bits : nat) (x y : R) :
  x <= y -> nearest bits x <= nearest bits y.
Proof.
  intros Hxy. pose proof (pow2_pos bits) as Hp. unfold nearest, JsMath.round.
  apply Rmult_le_compat_r; [left; apply Rinv_0_lt_compat; exact Hp|].
  apply IZR_le, floor_monotone.
  assert (x * 2 ^ bits <= y * 2 ^ bits) by (apply Rmult_le_compat_r; lra). lra.
Qed.

(** The numbers with [bits] places are left as they are. *)
Lemma nearest_grid (bits : nat) (k : Z) :
  nearest bits (IZR k / 2 ^ bits) = IZR k / 2 ^ bits.
Proof.
  pose proof (pow2_pos bits) as Hp. unfold nearest.
  replace (IZR k / 2 ^ bits * 2 ^ bits) with (IZR k) by (field; lra).
  rewrite round_integer. reflexivity.
Qed.

Lemma nearest_zero (bits : nat) : nearest bits 0 = 0.
Proof.
  replace 0 with (IZR 0 / 2 ^ bits) at 1 2.
  - apply nearest_grid.
  - pose proof (pow2_pos bits). field. lra.
Qed.

Lemma nearest_idempotent (bits : nat) (x : R) :
  nearest bits (nearest bits x) = nearest bits x.
Proof. unfold nearest at 2 3. apply nearest_grid. Qed.

Lemma nearest_opp (bits : nat) (x : R) : nearest bits x = x -> nearest bits (- x) = - x.
Proof.
  intros E. pose proof (pow2_pos bits) as Hp. rewrite <- E at 1 2. unfold nearest at 2 3.
  replace (- (IZR (JsMath.round (x * 2 ^ bits)) / 2 ^ bits))
    with (IZR (- JsMath.round (x * 2 ^ bits)) / 2 ^ bits)
    by (rewrite opp_IZR; field; lra).
  apply nearest_grid.
Qed.

(** A number with [bits] places has [bits + more] places. *)
Lemma nearest_finer (bits more : nat) (x : R) :
  nearest (bits + more) (nearest bits x) = nearest bits x.
Proof.
  pose proof (pow2_pos bits) as Hp. pose proof (pow2_pos more) as Hm.
  unfold nearest at 2 3.
  replace (IZR (JsMath.round (x * 2 ^ bits)) / 2 ^ bits)
    with (IZR (JsMath.round (x * 2 ^ bits) * 2 ^ Z.of_nat more) / 2 ^ (bits + more)).
  - apply nearest_grid.
  - rewrite mult_IZR, <- pow_IZR, pow_add. field. lra.
Qed.

Section StoredSmoother.

Variables double single : R -> R.
Variable p : Params.
Variable T : R.

Hypothesis double_monotone : forall x y, x <= y -> double x <= double y.
Hypothesis single_monotone : forall x y, x <= y -> single x <= single y.
Hypothesis double_zero : double 0 = 0.
Hypothesis single_zero : single 0 = 0.
Hypothesis double_opp : forall x, double x = x -> double (- x) = - x.
Hypothesis single_single : forall x, single (single x) = single x.
Hypothesis double_single : forall x, double (single x) = single x.
Hypothesis smoothing_ok : 0 < smoothing p <= 1.
Hypothesis target_ok : 0 <= T <= 1.

(** A number the array can hold: of single precision, hence of binary64. *)
Let stored (a : R) : Prop := single a = a /\ double a = a.

Lemma storedSmooth_stored (a : R) : stored (storedSmooth double single p a T).
Proof. unfold stored, storedSmooth. cbv zeta. split; [apply single_single | apply double_single]. Qed.

Lemma storedActivationAfter_stored (n : nat) :
  stored (storedActivationAfter double single p T n).
Proof.
  destruct n as [|k]; cbn [storedActivationAfter].
  - split; assumption.
  - apply storedSmooth_stored.
Qed.

(** Below the target a frame does not lower the activation. *)
Lemma storedSmooth_rises (a : R) :
  stored a -> a <= T -> a <= storedSmooth double single p a T.
Proof.
  intros [Hs Hd] Hle. unfold storedSmooth. cbv zeta.
  assert (H1 : 0 <= double (T - a)) by (rewrite <- double_zero; apply double_monotone; lra).
  assert (H2 : 0 <= double (T - a) * smoothing p) by (apply Rmult_le_pos; lra).
  assert (H3 : 0 <= double (double (T - a) * smoothing p))
    by (rewrite <- double_zero; apply double_monotone; exact H2).
  assert (H4 : a <= double (a + double (double (T - a) * smoothing p)))
    by (apply Rle_trans with (double a); [rewrite Hd; lra | apply double_monotone; lra]).
  apply Rle_trans with (single a); [rewrite Hs; lra | apply single_monotone; exact H4].
Qed.

(** Above the target a frame does not raise it. *)
Lemma storedSmooth_falls (a : R) :
  stored a -> T <= a -> storedSmooth double single p a T <= a.
Proof.
  intros [Hs Hd] Hle. unfold storedSmooth. cbv zeta.
  assert (H1 : double (T - a) <= 0) by (rewrite <- double_zero; apply double_monotone; lra).
  assert (H2 : double (T - a) * smoothing p <= 0).
  { replace 0 with (0 * smoothing p) by ring. apply Rmult_le_compat_r; lra. }
  assert (H3 : double (double (T - a) * smoothing p) <= 0)
    by (rewrite <- double_zero; apply double_monotone; exact H2).
  assert (H4 : double (a + double (double (T - a) * smoothing p)) <= a)
    by (apply Rle_trans with (double a); [apply double_monotone; lra | rewrite Hd; lra]).
  apply Rle_trans with (single a); [apply single_monotone; exact H4 | rewrite Hs; lra].
Qed.

Lemma storedSmooth_nonneg (a : R) :
  stored a -> 0 <= a -> 0 <= storedSmooth double single p a T.
Proof.
  intros Ha H0. destruct (Rle_dec a T) as [Hle|Hgt].
  - apply Rle_trans with a; [exact H0 | apply storedSmooth_rises; assumption].
  - destruct Ha as [Hs Hd]. unfold storedSmooth. cbv zeta.
    assert (Hopp : double (- a) = - a) by (apply double_opp; exact Hd).
    assert (H1 : - a <= double (T - a)) by (rewrite <- Hopp; apply double_monotone; lra).
    assert (H1' : double (T - a) <= 0) by (rewrite <- double_zero; apply double_monotone; lra).
    assert (H2 : - a <= double (T - a) * smoothing p) by nra.
    assert (H3 : - a <= double (double (T - a) * smoothing p))
      by (rewrite <- Hopp; apply double_monotone; exact H2).
    rewrite <- single_zero. apply single_monotone.
    rewrite <- double_zero. apply double_monotone. lra.
Qed.


End StoredSmoother.

